(** * Alphabet-table text normalisation (src/javascripts/alphabet.js)

    A shallow embedding of the alphabet module: the longest-match tokenizer
    [splitSymbols], the symbol lookups, the sort key [sortValue], the case
    conversion [setCase] and the accent removal [stripAccents], followed by
    the properties of each.

    Conventions of the embedding.
    - A JavaScript string is a [string]; its characters (UTF-16 code units in
      the source) are [ascii] characters here.  No function of the module
      looks inside a character, only compares characters for equality.
    - An alphabet is a [list] of five-element arrays
      [[symbol, winmac, sortBase, accentRank, caseValue]], a record here;
      the number fields are integers ([Z]).
    - [throw new Error(msg)] is the [Throw msg] result; nothing in the module
      catches, so a [Throw] propagates through [bind].
    - [replaceWinmac] substitutes regular expressions and is left out. *)

From Stdlib Require Import String Ascii List ZArith Bool Lia DecimalString.
Import ListNotations.

Local Open Scope list_scope.
Local Open Scope string_scope.

(** ** Results: a returned value or a thrown [Error] *)

Inductive result (A : Type) : Type :=
| Ok (a : A)
| Throw (message : string).

Arguments Ok {A} a.
Arguments Throw {A} message.

Definition bind {A B : Type} (r : result A) (k : A -> result B) : result B :=
  match r with
  | Ok a => k a
  | Throw m => Throw m
  end.

Notation "x <- r ;; k" := (bind r (fun x => k))
  (at level 61, r at next level, right associativity).

(** [arr.map(f)] with a callback that may throw: elements are visited in
    index order and the first throw leaves the loop. *)
Fixpoint mapR {A B : Type} (f : A -> result B) (l : list A) : result (list B) :=
  match l with
  | [] => Ok []
  | x :: xs => y <- f x ;; ys <- mapR f xs ;; Ok (y :: ys)
  end.

(** ** JavaScript values reaching [zeroPad] and string concatenation *)

Module JS.

(** The two kinds of value the module passes to [zeroPad] and to [+=]. *)
Inductive value : Type :=
| Num (n : Z)
| Str (s : string).

(** [ToString]: the decimal numeral of an integer number (in the range
    where JavaScript prints every digit, below 10^21 in magnitude). *)
Definition number_toString (n : Z) : string :=
  NilZero.string_of_int (Z.to_int n).

Definition toString (v : value) : string :=
  match v with
  | Num n => number_toString n
  | Str s => s
  end.

(** [v.length]: the length of a string, [undefined] on a number. *)
Definition length_of (v : value) : option nat :=
  match v with
  | Num _ => None
  | Str s => Some (String.length s)
  end.

(** [v.length < min]: [undefined < min] converts [undefined] to NaN and
    is false. *)
Definition length_lt (v : value) (min : nat) : bool :=
  match length_of v with
  | None => false
  | Some n => Nat.ltb n min
  end.

(** The double quote character used inside error messages. *)
Definition dquote : string := String (ascii_of_nat 34) EmptyString.

(** [s.substr(0, len)]: the first [len] characters of [s], all of [s] when
    it is shorter. *)
Definition substr0 (s : string) (len : nat) : string := substring 0 len s.

(** [s[0]] used in a string concatenation: the first character, and the
    text of [undefined] on the empty string. *)
Definition char0 (s : string) : string :=
  match s with
  | EmptyString => "undefined"
  | String c _ => String c EmptyString
  end.

(** [arr.join('')]. *)
Definition join (l : list string) : string := String.concat "" l.

End JS.

(** ** The alphabet table *)

Record SymbolDefinition : Type := mkSymbol {
  symbol : string;            (* index 0 *)
  winmac : option string;     (* index 1, null when absent *)
  sortBase : Z;               (* index 2 *)
  accentRank : Z;             (* index 3 *)
  caseValue : Z               (* index 4 *)
}.

Definition Alphabet : Type := list SymbolDefinition.

(** [getSymbols]: lines 8-14. *)
Definition getSymbols (alphabet : Alphabet) : list string :=
  map symbol alphabet.

(** ** The tokenizer, lines 26-63 *)

(** [validSymbolPart], lines 31-38: some symbol starts with [str]. *)
Definition validSymbolPart (reference : list string) (str : string) : bool :=
  existsb (fun r => String.eqb (JS.substr0 r (String.length str)) str) reference.

(** The loop variables [symbols] and [buffer]. *)
Record scan : Type := mkScan {
  symbols : list string;
  buffer : string
}.

Definition unknownSymbol (ch str : string) : string :=
  "Unknown symbol " ++ JS.dquote ++ ch ++ JS.dquote ++ " in "
    ++ JS.dquote ++ str ++ JS.dquote.

(** [if (buffer.length) { symbols.push(buffer); buffer = ''; }] *)
Definition flush (st : scan) : scan :=
  match buffer st with
  | EmptyString => st
  | _ => mkScan (symbols st ++ [buffer st]) ""
  end.

(** One turn of the [for] loop, lines 41-57, on the character [c]. *)
Definition splitStep (reference : list string) (str : string)
    (st : scan) (c : ascii) : result scan :=
  let ch := String c EmptyString in
  if validSymbolPart reference (buffer st ++ ch) then
    Ok (mkScan (symbols st) (buffer st ++ ch))
  else
    let st' := flush st in
    if validSymbolPart reference ch then
      Ok (mkScan (symbols st') ch)
    else
      Throw (unknownSymbol ch str).

(** The [for] loop over the characters that remain. *)
Fixpoint splitLoop (reference : list string) (str : string)
    (st : scan) (rest : string) : result scan :=
  match rest with
  | EmptyString => Ok st
  | String c rest' =>
      st' <- splitStep reference str st c ;;
      splitLoop reference str st' rest'
  end.

Definition splitSymbols (alphabet : Alphabet) (str : string)
    : result (list string) :=
  let reference := getSymbols alphabet in
  st <- splitLoop reference str (mkScan [] "") str ;;
  Ok (symbols (flush st)).

(** ** Padding and lookups, lines 74-108 *)

(** The [while] loop of [zeroPad], lines 75-77: [str = '0' + str] as long as
    [str.length < min].  After the first turn [str] is a string, and every
    turn makes it one character longer, so [min] turns are always enough
    ([zeroPad_loop_exit] below). *)
Fixpoint zeroPadLoop (turns min : nat) (str : JS.value) : JS.value :=
  match turns with
  | O => str
  | S k =>
      if JS.length_lt str min
      then zeroPadLoop k min (JS.Str ("0" ++ JS.toString str))
      else str
  end.

(** [zeroPad], lines 74-79. *)
Definition zeroPad (min : nat) (str : JS.value) : JS.value :=
  zeroPadLoop min min str.

Definition unknownSymbolInfo (sym : string) : string :=
  "Unknown symbol: " ++ JS.dquote ++ sym ++ JS.dquote.

(** [getSymbolInfo], lines 89-96: the first entry whose symbol is [sym]. *)
Fixpoint getSymbolInfo_from (entries : Alphabet) (sym : string)
    : result SymbolDefinition :=
  match entries with
  | [] => Throw (unknownSymbolInfo sym)
  | e :: rest =>
      if String.eqb (symbol e) sym then Ok e else getSymbolInfo_from rest sym
  end.

Definition getSymbolInfo (alphabet : Alphabet) (sym : string)
    : result SymbolDefinition :=
  getSymbolInfo_from alphabet sym.

(** [getSortBase], lines 106-108. *)
Definition getSortBase (alphabet : Alphabet) (sym : string) : result Z :=
  info <- getSymbolInfo alphabet sym ;; Ok (sortBase info).

(** ** The sort key, lines 120-129 *)

(** The [for] loop over the tokens, with the accumulator [value]. *)
Fixpoint sortLoop (alphabet : Alphabet) (syms : list string)
    (value : string) : result string :=
  match syms with
  | [] => Ok value
  | s :: rest =>
      sortbase <- getSortBase alphabet s ;;
      sortLoop alphabet rest
        (value ++ JS.toString (zeroPad 2 (JS.Num sortbase)))
  end.

Definition sortValue (alphabet : Alphabet) (str : string) : result string :=
  syms <- splitSymbols alphabet str ;;
  sortLoop alphabet syms "".

(** ** Case conversion, lines 159-213 *)

(** The callback of [alphabet.filter] in [setCase]. *)
Definition caseFilter (baseSort accentSort caseval : Z)
    (s : SymbolDefinition) : bool :=
  if (sortBase s =? baseSort)%Z && (accentRank s =? accentSort)%Z then
    if (caseValue s =? caseval)%Z || (caseValue s =? -1)%Z then true
    else false
  else false.

Definition noMatchingCharacter (s : string) : string :=
  "No matching character found for " ++ JS.dquote ++ JS.char0 s ++ JS.dquote.

Definition multipleMatchingCharacters (s : string) : string :=
  "Mulitple matching characters found for "
    ++ JS.dquote ++ JS.char0 s ++ JS.dquote.

(** The callback of [symbols.map] in [setCase], on the token [s]: no entry
    left by the filter throws, more than one throws, and one is returned.
    The [s] of the error messages is the token, a string, so [s[0]] is its
    first character. *)
Definition setCaseSymbol (alphabet : Alphabet) (caseval : Z) (s : string)
    : result string :=
  info <- getSymbolInfo alphabet s ;;
  let baseSort := sortBase info in
  let accentSort := accentRank info in
  let newcase := filter (caseFilter baseSort accentSort caseval) alphabet in
  match newcase with
  | [] => Throw (noMatchingCharacter s)
  | first :: others =>
      if Nat.ltb 1 (List.length newcase)
      then Throw (multipleMatchingCharacters s)
      else Ok (symbol first)
  end.

Definition setCase (alphabet : Alphabet) (str : string) (caseval : Z)
    : result string :=
  syms <- splitSymbols alphabet str ;;
  newcased <- mapR (setCaseSymbol alphabet caseval) syms ;;
  Ok (JS.join newcased).

Definition toUpperCase (alphabet : Alphabet) (str : string) : result string :=
  setCase alphabet str 1.

Definition toLowerCase (alphabet : Alphabet) (str : string) : result string :=
  setCase alphabet str 0.

(** ** Accent removal, lines 223-256 *)

Definition noUnaccented (sym : string) : string :=
  "No matching symbol without accents for "
    ++ JS.dquote ++ sym ++ JS.dquote.

(** The test of the [for] loop of [removeSymbolAccent]. *)
Definition unaccentedOf (sym s : SymbolDefinition) : bool :=
  (sortBase s =? sortBase sym)%Z && (accentRank s =? 0)%Z
    && (caseValue s =? caseValue sym)%Z.

Fixpoint removeAccent_from (entries : Alphabet) (sym : SymbolDefinition)
    : result string :=
  match entries with
  | [] => Throw (noUnaccented (symbol sym))
  | s :: rest =>
      if unaccentedOf sym s then Ok (symbol s)
      else removeAccent_from rest sym
  end.

Definition removeSymbolAccent (alphabet : Alphabet) (sym : SymbolDefinition)
    : result string :=
  if (accentRank sym =? 0)%Z then Ok (symbol sym)
  else removeAccent_from alphabet sym.

(** The [for] loop of [stripAccents], with the accumulator [result]. *)
Fixpoint stripLoop (alphabet : Alphabet) (syms : list string)
    (acc : string) : result string :=
  match syms with
  | [] => Ok acc
  | x :: rest =>
      s <- getSymbolInfo alphabet x ;;
      r <- removeSymbolAccent alphabet s ;;
      stripLoop alphabet rest (acc ++ r)
  end.

Definition stripAccents (alphabet : Alphabet) (str : string) : result string :=
  syms <- splitSymbols alphabet str ;;
  stripLoop alphabet syms "".

(** ** The example table of the specification *)

Definition exampleAlphabet : Alphabet :=
  [ mkSymbol "a" None 1 0 (-1);
    mkSymbol "b" None 2 0 0;
    mkSymbol "B" None 2 0 1 ].


(** Tables used to exhibit behaviours of the code. *)

(** One digraph and nothing else. *)
Definition digraphOnly : Alphabet := [ mkSymbol "ab" None 1 0 (-1) ].

(** The letter [z] only as the beginning of a longer symbol. *)
Definition doubledZ : Alphabet :=
  [ mkSymbol "a" None 1 0 (-1); mkSymbol "zz" None 2 0 (-1) ].

(** Sort bases 2 and 10. *)
Definition twoAndTen : Alphabet :=
  [ mkSymbol "a" None 2 0 (-1); mkSymbol "b" None 10 0 (-1) ].

(** ** The candidate buffer in the words of the specification

    Section 4.2, steps 1 to 4: starting from the buffer [b], the characters
    of [consumed] are taken one by one; a character that keeps the buffer a
    prefix of some symbol is appended, another one that can begin a prefix
    starts a new buffer.  [Scans reference b consumed b'] says that all of
    [consumed] is taken this way and leaves the buffer [b']. *)
Inductive Scans (reference : list string) : string -> string -> string -> Prop :=
| Scans_done : forall b, Scans reference b "" b
| Scans_extend : forall b c rest b',
    validSymbolPart reference (b ++ String c "") = true ->
    Scans reference (b ++ String c "") rest b' ->
    Scans reference b (String c rest) b'
| Scans_restart : forall b c rest b',
    validSymbolPart reference (b ++ String c "") = false ->
    validSymbolPart reference (String c "") = true ->
    Scans reference (String c "") rest b' ->
    Scans reference b (String c rest) b'.

(** The character [c] occurs in [s]. *)
Fixpoint occurs (c : ascii) (s : string) : bool :=
  match s with
  | EmptyString => false
  | String x rest => Ascii.eqb x c || occurs c rest
  end.

(** What the tokenizer has emitted, followed by its buffer. *)
Definition scanned (st : scan) : string :=
  JS.join (symbols st) ++ buffer st.

(** A non-empty string with which some symbol begins. *)
Definition symbolPart (reference : list string) (t : string) : Prop :=
  t <> "" /\ validSymbolPart reference t = true.

(** ** The intended collation, for comparison with the sort key *)

(** The sort bases of the tokens of a text, in token order. *)
Definition sortBases (alphabet : Alphabet) (str : string) : result (list Z) :=
  syms <- splitSymbols alphabet str ;;
  mapR (getSortBase alphabet) syms.

(** One sequence of sort bases comes before another, symbol by symbol. *)
Fixpoint basesBefore (x y : list Z) : bool :=
  match x, y with
  | [], [] => false
  | [], _ :: _ => true
  | _ :: _, [] => false
  | a :: x', b :: y' =>
      if (a <? b)%Z then true
      else if (a =? b)%Z then basesBefore x' y' else false
  end.

(** ** Siblings of a symbol in the table *)

(** [e] has the sort base and accent rank of [info], and the case [caseval]
    or no case. *)
Definition caseSibling (info : SymbolDefinition) (caseval : Z)
    (e : SymbolDefinition) : Prop :=
  sortBase e = sortBase info /\ accentRank e = accentRank info /\
  (caseValue e = caseval \/ caseValue e = (-1)%Z).

Definition noSibling (alphabet : Alphabet) (info : SymbolDefinition)
    (caseval : Z) : Prop :=
  Forall (fun x => ~ caseSibling info caseval x) alphabet.

(** [e] is an entry of the table and its only case sibling of [info]. *)
Definition onlySibling (alphabet : Alphabet) (info : SymbolDefinition)
    (caseval : Z) (e : SymbolDefinition) : Prop :=
  exists l1 l2,
    alphabet = (l1 ++ e :: l2)%list /\ caseSibling info caseval e /\
    Forall (fun x => ~ caseSibling info caseval x) (l1 ++ l2)%list.

(** Two entries at different places of the table are case siblings. *)
Definition severalSiblings (alphabet : Alphabet) (info : SymbolDefinition)
    (caseval : Z) : Prop :=
  exists l1 e1 l2 e2 l3,
    alphabet = (l1 ++ e1 :: l2 ++ e2 :: l3)%list /\
    caseSibling info caseval e1 /\ caseSibling info caseval e2.

(** [e] has the sort base and case of [sym] and no accent. *)
Definition unaccentedSibling (sym e : SymbolDefinition) : Prop :=
  sortBase e = sortBase sym /\ accentRank e = 0%Z /\
  caseValue e = caseValue sym.

(** The body of the loop of [stripAccents] on one token. *)
Definition stripSymbol (alphabet : Alphabet) (x : string) : result string :=
  s <- getSymbolInfo alphabet x ;; removeSymbolAccent alphabet s.

(** Two unaccented forms for one accented symbol. *)
Definition twoUnaccented : Alphabet :=
  [ mkSymbol "e" None 5 0 0; mkSymbol "f" None 5 0 0; mkSymbol "x" None 5 1 0 ].

(** Two entries of case 1 for one lower-case symbol. *)
Definition twoUpper : Alphabet :=
  [ mkSymbol "a" None 1 0 0; mkSymbol "A" None 1 0 1; mkSymbol "Q" None 1 0 1 ].

(** The array [newcased] of [setCase]: the case forms of the tokens. *)
Definition caseTokens (alphabet : Alphabet) (str : string) (caseval : Z)
    : result (list string) :=
  syms <- splitSymbols alphabet str ;;
  mapR (setCaseSymbol alphabet caseval) syms.

(** The unaccented forms of the tokens of a text, as [stripAccents] appends
    them. *)
Definition stripTokens (alphabet : Alphabet) (str : string)
    : result (list string) :=
  syms <- splitSymbols alphabet str ;;
  mapR (stripSymbol alphabet) syms.

(** A text composed only of symbols whose case value is 0 or 1. *)
Definition caseBearing (alphabet : Alphabet) (str : string) : Prop :=
  exists syms,
    splitSymbols alphabet str = Ok syms /\
    Forall (fun s => exists info,
              getSymbolInfo alphabet s = Ok info /\
              (caseValue info = 0%Z \/ caseValue info = 1%Z)) syms.

(** Upper-case letters that spell an upper-case digraph. *)
Definition digraphUpper : Alphabet :=
  [ mkSymbol "a" None 1 0 0; mkSymbol "A" None 1 0 1;
    mkSymbol "b" None 2 0 0; mkSymbol "B" None 2 0 1;
    mkSymbol "AB" None 3 0 1; mkSymbol "x" None 3 0 0 ].

(** The symbol [A] listed twice, with two sort bases. *)
Definition repeatedUpper : Alphabet :=
  [ mkSymbol "A" None 9 0 1; mkSymbol "a" None 1 0 0;
    mkSymbol "A" None 1 0 1; mkSymbol "z" None 9 0 0 ].

(** Unaccented letters that spell an accented digraph. *)
Definition accentDigraph : Alphabet :=
  [ mkSymbol "x" None 1 1 0; mkSymbol "a" None 1 0 0;
    mkSymbol "b" None 2 0 0; mkSymbol "ab" None 3 1 0;
    mkSymbol "c" None 3 0 0 ].

(** The symbol [b] listed twice, accented first. *)
Definition repeatedUnaccented : Alphabet :=
  [ mkSymbol "b" None 2 1 0; mkSymbol "a" None 1 1 0;
    mkSymbol "b" None 1 0 0; mkSymbol "c" None 2 0 0 ].

(** ** Legacy encodings, lines 140-148 *)

Section ReplaceWinmac.

(** [str.replace(new RegExp(pattern, 'gm'), replacement)], the regular
    expression engine of the host, given the pattern, the subject and the
    replacement.  It throws when the pattern is no regular expression. *)
Variable regexReplace : string -> string -> string -> result string.

(** [if (alphabet[i][1])]: [null] and the empty string are skipped. *)
Definition winmacPattern (e : SymbolDefinition) : option string :=
  match winmac e with
  | None => None
  | Some EmptyString => None
  | Some p => Some p
  end.

(** [replaceWinmac]: the [for] loop over the entries that remain. *)
Fixpoint replaceWinmac (alphabet : Alphabet) (str : string) : result string :=
  match alphabet with
  | [] => Ok str
  | e :: rest =>
      match winmacPattern e with
      | Some p =>
          str' <- regexReplace p str (symbol e) ;;
          replaceWinmac rest str'
      | None => replaceWinmac rest str
      end
  end.

End ReplaceWinmac.

(** ** Notions used to state what the functions guarantee *)

(** [n] characters [0]. *)
Fixpoint zeros (n : nat) : string :=
  match n with
  | O => ""
  | S k => String "0" (zeros k)
  end.

(** [r] begins with [p]. *)
Definition startsWith (r p : string) : Prop := exists q, r = p ++ q.

(** The token [t1] cannot take the first character of the next token [t2]
    and remain the beginning of a symbol. *)
Definition cannotExtend (reference : list string) (t1 t2 : string) : Prop :=
  match t2 with
  | EmptyString => True
  | String c _ => validSymbolPart reference (t1 ++ String c "") = false
  end.

(** Every token is as long as the table allowed it to grow. *)
Fixpoint maximalMunch (reference : list string) (toks : list string) : Prop :=
  match toks with
  | [] => True
  | t1 :: rest =>
      match rest with
      | [] => True
      | t2 :: _ => cannotExtend reference t1 t2
      end /\ maximalMunch reference rest
  end.

(** The invariant of the tokenizer loop for [maximalMunch]: the emitted
    symbols followed by the buffer are maximal, and symbols are emitted only
    once a buffer exists. *)
Definition munching (reference : list string) (st : scan) : Prop :=
  maximalMunch reference (symbols st ++ [buffer st]) /\
  (buffer st = "" -> symbols st = []).

(** No symbol is empty and none is the beginning of another one. *)
Definition prefixFree (reference : list string) : Prop :=
  (forall r, In r reference -> r <> "") /\
  (forall r1 r2, In r1 reference -> In r2 reference ->
                 startsWith r2 r1 -> r1 = r2).

(** A sort base whose numeral has two digits. *)
Definition twoDigit (n : Z) : Prop := (10 <= n <= 99)%Z.

(** The sort bases from 10 to 99, and the test that two comparisons agree,
    for checking all of them by computation. *)
Definition twoDigitRange : list Z := map Z.of_nat (seq 10 90).

Definition sameComparison (c1 c2 : comparison) : bool :=
  match c1, c2 with
  | Eq, Eq | Lt, Lt | Gt, Gt => true
  | _, _ => false
  end.

Definition twoCharacters (s : string) : bool :=
  match s with
  | String _ (String _ EmptyString) => true
  | _ => false
  end.

(** The token [t] is the symbol of some entry. *)
Definition listed (alphabet : Alphabet) (t : string) : Prop :=
  In t (getSymbols alphabet).

(** A table with digraph-free upper and lower case letters and one
    accented pair, sort bases of two digits. *)
Definition cree : Alphabet :=
  [ mkSymbol "a" None 10 0 0; mkSymbol "A" None 10 0 1;
    mkSymbol "q" None 10 1 0; mkSymbol "Q" None 10 1 1;
    mkSymbol "b" None 11 0 0; mkSymbol "B" None 11 0 1;
    mkSymbol "-" None 12 0 (-1) ].

(** * Properties *)

(** ** Strings and results *)

Section Strings.

Lemma append_empty_r (s : string) : s ++ "" = s.
Proof. induction s as [|c s IH]; simpl; [reflexivity | now rewrite IH]. Qed.

Lemma append_assoc (a b c : string) : (a ++ b) ++ c = a ++ (b ++ c).
Proof. induction a as [|x a IH]; simpl; [reflexivity | now rewrite IH]. Qed.

Lemma length_append (a b : string) :
  String.length (a ++ b) = String.length a + String.length b.
Proof. induction a as [|x a IH]; simpl; [reflexivity | now rewrite IH]. Qed.

Lemma join_cons (x : string) (xs : list string) :
  JS.join (x :: xs) = x ++ JS.join xs.
Proof.
  unfold JS.join. destruct xs as [|y ys]; simpl.
  - now rewrite append_empty_r.
  - reflexivity.
Qed.

Lemma join_app (l1 l2 : list string) :
  JS.join (l1 ++ l2) = JS.join l1 ++ JS.join l2.
Proof.
  induction l1 as [|x l1 IH].
  - reflexivity.
  - rewrite <- app_comm_cons, !join_cons, IH, append_assoc. reflexivity.
Qed.

Lemma join_snoc (l : list string) (x : string) :
  JS.join (l ++ [x]) = JS.join l ++ x.
Proof. rewrite join_app, join_cons. simpl. now rewrite append_empty_r. Qed.

(** [substr(0, n)] of a string that begins with [n] characters [p]. *)
Lemma substr0_append (p rest : string) :
  JS.substr0 (p ++ rest) (String.length p) = p.
Proof.
  unfold JS.substr0. induction p as [|c p IH]; simpl.
  - destruct rest; reflexivity.
  - now rewrite IH.
Qed.

Lemma substr0_occurs (c : ascii) (n : nat) (s : string) :
  occurs c (JS.substr0 s n) = true -> occurs c s = true.
Proof.
  unfold JS.substr0. revert s.
  induction n as [|n IH]; intros [|x s]; simpl; try discriminate.
  intros H. apply orb_true_iff in H. apply orb_true_iff.
  destruct H as [H|H]; [now left | right; now apply IH].
Qed.

Lemma occurs_append_last (c : ascii) (b : string) :
  occurs c (b ++ String c "") = true.
Proof.
  induction b as [|x b IH]; simpl.
  - now rewrite Ascii.eqb_refl.
  - rewrite IH. apply orb_true_r.
Qed.

End Strings.

Lemma bind_ok {A B : Type} (r : result A) (k : A -> result B) (b : B) :
  bind r k = Ok b <-> exists a, r = Ok a /\ k a = Ok b.
Proof.
  destruct r as [a|m]; simpl; split.
  - intros H. now exists a.
  - intros (a' & E & H). now inversion E; subst.
  - discriminate.
  - intros (a' & E & _). discriminate.
Qed.

Section Results.

Context {A B : Type}.

Lemma mapR_cons_ok (f : A -> result B) (x : A) (xs : list A) (l : list B) :
  mapR f (x :: xs) = Ok l <->
  exists y ys, f x = Ok y /\ mapR f xs = Ok ys /\ l = y :: ys.
Proof.
  simpl. split.
  - intros H. apply bind_ok in H. destruct H as (y & Hy & H).
    destruct (mapR f xs) as [ys|m]; simpl in H; [|discriminate].
    exists y, ys. inversion H. auto.
  - intros (y & ys & Hy & Hys & ->). rewrite Hy, Hys. reflexivity.
Qed.

Lemma mapR_app_throw (f : A -> result B) (pre : list A) (x : A)
    (post : list A) (outs : list B) (m : string) :
  mapR f pre = Ok outs -> f x = Throw m ->
  mapR f (pre ++ x :: post) = Throw m.
Proof.
  revert outs. induction pre as [|p pre IH]; intros outs Hpre Hx; simpl.
  - now rewrite Hx.
  - apply mapR_cons_ok in Hpre. destruct Hpre as (y & ys & Hy & Hys & _).
    rewrite Hy. simpl. rewrite (IH ys Hys Hx). reflexivity.
Qed.

End Results.

(** ** The tokenizer *)

Section Tokenizer.

Variable reference : list string.
Variable str : string.

Lemma flush_scanned (st : scan) : scanned (flush st) = scanned st.
Proof.
  unfold scanned, flush. destruct st as [syms [|c b]]; simpl.
  - reflexivity.
  - now rewrite join_snoc, append_empty_r.
Qed.

Lemma flush_buffer (st : scan) : buffer (flush st) = "".
Proof. unfold flush. destruct (buffer st) eqn:E; simpl; auto. Qed.

Lemma splitStep_scanned (st st' : scan) (c : ascii) :
  splitStep reference str st c = Ok st' ->
  scanned st' = scanned st ++ String c "".
Proof.
  unfold splitStep.
  destruct (validSymbolPart reference (buffer st ++ String c "")).
  - intros H. inversion H. unfold scanned. simpl.
    now rewrite append_assoc.
  - destruct (validSymbolPart reference (String c "")); [|discriminate].
    intros H. inversion H. unfold scanned at 1. simpl.
    rewrite <- (flush_scanned st). unfold scanned.
    now rewrite flush_buffer, append_empty_r.
Qed.

(** The loop invariant: emitted symbols, buffer and remaining characters
    always spell the same text. *)
Lemma splitLoop_scanned (rest : string) :
  forall st st',
    splitLoop reference str st rest = Ok st' ->
    scanned st' = scanned st ++ rest.
Proof.
  induction rest as [|c rest IH]; intros st st' H; simpl in H.
  - inversion H. now rewrite append_empty_r.
  - apply bind_ok in H. destruct H as (st1 & Hstep & Hloop).
    rewrite (IH _ _ Hloop), (splitStep_scanned _ _ _ Hstep), append_assoc.
    reflexivity.
Qed.

(** The loop against the relation [Scans]: it throws exactly at the first
    character that neither extends the buffer nor begins a prefix. *)
Lemma splitLoop_throw_iff (rest : string) :
  forall st m,
    splitLoop reference str st rest = Throw m <->
    exists pre c post b,
      rest = pre ++ String c post /\
      Scans reference (buffer st) pre b /\
      validSymbolPart reference (b ++ String c "") = false /\
      validSymbolPart reference (String c "") = false /\
      m = unknownSymbol (String c "") str.
Proof.
  induction rest as [|a rest IH]; intros st m; simpl.
  - split; [discriminate|].
    intros (pre & c & post & b & E & _). destruct pre; discriminate.
  - unfold splitStep.
    destruct (validSymbolPart reference (buffer st ++ String a "")) eqn:Hext;
      [|destruct (validSymbolPart reference (String a "")) eqn:Hnew];
      simpl.
    + rewrite IH. simpl. split.
      * intros (pre & c & post & b & -> & Hs & H1 & H2 & ->).
        exists (String a pre), c, post, b. repeat split; auto.
        now apply Scans_extend.
      * intros (pre & c & post & b & E & Hs & H1 & H2 & ->).
        destruct pre as [|a' pre]; simpl in E; inversion E; subst.
        -- inversion Hs; subst. congruence.
        -- inversion Hs; subst; [|congruence].
           exists pre, c, post, b. repeat split; auto.
    + rewrite IH. simpl. split.
      * intros (pre & c & post & b & -> & Hs & H1 & H2 & ->).
        exists (String a pre), c, post, b. repeat split; auto.
        now apply Scans_restart.
      * intros (pre & c & post & b & E & Hs & H1 & H2 & ->).
        destruct pre as [|a' pre]; simpl in E; inversion E; subst.
        -- inversion Hs; subst. congruence.
        -- inversion Hs; subst; [congruence|].
           exists pre, c, post, b. repeat split; auto.
    + split.
      * intros H. inversion H.
        exists "", a, rest, (buffer st). repeat split; auto.
        apply Scans_done.
      * intros (pre & c & post & b & E & Hs & H1 & H2 & ->).
        destruct pre as [|a' pre]; simpl in E; inversion E; subst.
        -- reflexivity.
        -- inversion Hs; subst; congruence.
Qed.

(** A prefix test that succeeds names a symbol containing every character
    of the tested string. *)
Lemma validSymbolPart_occurs (c : ascii) (p : string) :
  validSymbolPart reference p = true ->
  occurs c p = true ->
  exists r, In r reference /\ occurs c r = true.
Proof.
  unfold validSymbolPart. intros H Hc.
  apply existsb_exists in H. destruct H as (r & Hin & Heq).
  apply String.eqb_eq in Heq. exists r. split; [assumption|].
  apply (substr0_occurs c (String.length p)). now rewrite Heq.
Qed.

(** What the loop does guarantee of its tokens: each is a non-empty
    beginning of a symbol. *)
Lemma flush_parts (st : scan) :
  Forall (symbolPart reference) (symbols st) ->
  buffer st = "" \/ symbolPart reference (buffer st) ->
  Forall (symbolPart reference) (symbols (flush st)).
Proof.
  intros Hs Hb. unfold flush. destruct (buffer st) as [|c b] eqn:E.
  - exact Hs.
  - simpl. apply Forall_app. split; [exact Hs|].
    constructor; [|constructor]. destruct Hb as [Hb|Hb]; [discriminate|].
    exact Hb.
Qed.

Lemma splitStep_parts (st st' : scan) (c : ascii) :
  Forall (symbolPart reference) (symbols st) ->
  buffer st = "" \/ symbolPart reference (buffer st) ->
  splitStep reference str st c = Ok st' ->
  Forall (symbolPart reference) (symbols st') /\
  symbolPart reference (buffer st').
Proof.
  intros Hs Hb. unfold splitStep.
  destruct (validSymbolPart reference (buffer st ++ String c "")) eqn:Hext.
  - intros H. inversion H. simpl. split; [exact Hs|]. split; [|exact Hext].
    destruct (buffer st); discriminate.
  - destruct (validSymbolPart reference (String c "")) eqn:Hnew;
      [|discriminate].
    intros H. inversion H. simpl. split.
    + now apply flush_parts.
    + split; [discriminate | exact Hnew].
Qed.

Lemma splitLoop_parts (rest : string) :
  forall st st',
    Forall (symbolPart reference) (symbols st) ->
    buffer st = "" \/ symbolPart reference (buffer st) ->
    splitLoop reference str st rest = Ok st' ->
    Forall (symbolPart reference) (symbols st') /\
    (buffer st' = "" \/ symbolPart reference (buffer st')).
Proof.
  induction rest as [|c rest IH]; intros st st' Hs Hb H; simpl in H.
  - inversion H; subst. auto.
  - apply bind_ok in H. destruct H as (st1 & Hstep & Hloop).
    destruct (splitStep_parts _ _ _ Hs Hb Hstep) as [Hs1 Hb1].
    apply (IH st1 st'); auto.
Qed.

End Tokenizer.

(** C3.  For every alphabet and every text on which [splitSymbols] succeeds,
    concatenating the returned tokens in order yields exactly the text. *)
Theorem splitSymbols_roundtrip :
  forall (alphabet : Alphabet) (text : string) (tokens : list string),
    splitSymbols alphabet text = Ok tokens ->
    String.concat "" tokens = text.
Proof.
  intros alphabet text tokens H. unfold splitSymbols in H.
  apply bind_ok in H. destruct H as (st & Hloop & Hret).
  inversion Hret; subst tokens; clear Hret.
  apply splitLoop_scanned in Hloop.
  rewrite <- (flush_scanned st) in Hloop. unfold scanned in Hloop.
  rewrite flush_buffer, append_empty_r in Hloop. simpl in Hloop.
  exact Hloop.
Qed.

Lemma splitSymbols_roundtrip_witness :
  splitSymbols exampleAlphabet "aB" = Ok ["a"; "B"] /\
  String.concat "" ["a"; "B"] = "aB".
Proof.
  split; [reflexivity|].
  apply (splitSymbols_roundtrip exampleAlphabet "aB" ["a"; "B"]).
  reflexivity.
Defined.

(** Every token returned by [splitSymbols] is a non-empty string with
    which some symbol of the table begins. *)
Lemma splitSymbols_tokens_begin_symbols :
  forall (alphabet : Alphabet) (text : string) (tokens : list string),
    splitSymbols alphabet text = Ok tokens ->
    Forall (symbolPart (getSymbols alphabet)) tokens.
Proof.
  intros alphabet text tokens H. unfold splitSymbols in H.
  apply bind_ok in H. destruct H as (st & Hloop & Hret).
  inversion Hret; subst tokens; clear Hret.
  apply splitLoop_parts in Hloop; simpl; auto.
  destruct Hloop as [Hs Hb]. now apply flush_parts.
Qed.

(** C2.  On the table whose only symbol is the digraph [ab], the text [a]
    is split without an error into the token [a], which is the symbol of no
    entry: the buffer is emitted without being looked up. *)
Theorem splitSymbols_emits_unlisted_token :
  splitSymbols digraphOnly "a" = Ok ["a"] /\
  ~ In "a" (getSymbols digraphOnly).
Proof.
  split; [reflexivity|].
  simpl. intros [H|[]]. discriminate.
Qed.

(** C5.  [splitSymbols] throws if and only if some character of the text
    can neither extend the candidate buffer reached before it to a prefix
    of a symbol nor begin a prefix itself, and the error then names that
    character and the whole text.  In particular, on an alphabet in which
    some symbol begins with [a] and no symbol contains the character [z],
    the text [az] is refused with an error naming [z]. *)
Theorem splitSymbols_unknown_symbol :
  (forall (alphabet : Alphabet) (text m : string),
      splitSymbols alphabet text = Throw m <->
      exists pre c post b,
        text = pre ++ String c post /\
        Scans (getSymbols alphabet) "" pre b /\
        validSymbolPart (getSymbols alphabet) (b ++ String c "") = false /\
        validSymbolPart (getSymbols alphabet) (String c "") = false /\
        m = unknownSymbol (String c "") text) /\
  (forall alphabet : Alphabet,
      validSymbolPart (getSymbols alphabet) "a" = true ->
      (forall s, In s (getSymbols alphabet) -> occurs "z" s = false) ->
      splitSymbols alphabet "az" = Throw (unknownSymbol "z" "az")).
Proof.
  assert (General : forall (alphabet : Alphabet) (text m : string),
      splitSymbols alphabet text = Throw m <->
      exists pre c post b,
        text = pre ++ String c post /\
        Scans (getSymbols alphabet) "" pre b /\
        validSymbolPart (getSymbols alphabet) (b ++ String c "") = false /\
        validSymbolPart (getSymbols alphabet) (String c "") = false /\
        m = unknownSymbol (String c "") text).
  { intros alphabet text m.
    rewrite <- (splitLoop_throw_iff (getSymbols alphabet) text text
                  (mkScan [] "") m).
    unfold splitSymbols.
    destruct (splitLoop (getSymbols alphabet) text (mkScan [] "") text);
      simpl; split; congruence. }
  split; [exact General|].
  intros alphabet Ha Hz. apply General.
  assert (Hno : forall p, occurs "z" p = true ->
                validSymbolPart (getSymbols alphabet) p = false).
  { intros p Hp.
    destruct (validSymbolPart (getSymbols alphabet) p) eqn:E; [|reflexivity].
    destruct (validSymbolPart_occurs _ "z"%char p E Hp) as (r & Hin & Hr).
    rewrite (Hz r Hin) in Hr. discriminate. }
  exists "a", "z"%char, "", "a". repeat split.
  - apply Scans_extend; [exact Ha | apply Scans_done].
  - apply Hno. reflexivity.
  - apply Hno. reflexivity.
Qed.

Lemma splitSymbols_unknown_symbol_witness :
  splitSymbols exampleAlphabet "az" = Throw (unknownSymbol "z" "az").
Proof.
  apply (proj2 splitSymbols_unknown_symbol exampleAlphabet).
  - reflexivity.
  - simpl. intros s [<-|[<-|[<-|[]]]]; reflexivity.
Defined.

(** When [z] is no symbol but begins one, [az] is split without an error:
    the test is on beginnings of symbols, not on symbols. *)
Lemma splitSymbols_beginning_accepted :
  ~ In "z" (getSymbols doubledZ) /\
  splitSymbols doubledZ "az" = Ok ["a"; "z"].
Proof.
  split; [|reflexivity]. simpl. intros [H|[H|[]]]; discriminate.
Qed.

(** The other values of the specification's example. *)
Lemma exampleAlphabet_values :
  splitSymbols exampleAlphabet "aB" = Ok ["a"; "B"] /\
  toLowerCase exampleAlphabet "aB" = Ok "ab" /\
  getSortBase exampleAlphabet "B" = Ok 2%Z.
Proof. repeat split. Qed.

(** C10.  On the empty text every text-level operation returns the empty
    result without an error, whatever the alphabet and the target case. *)
Theorem empty_text :
  forall (alphabet : Alphabet) (caseval : Z),
    splitSymbols alphabet "" = Ok [] /\
    sortValue alphabet "" = Ok "" /\
    setCase alphabet "" caseval = Ok "" /\
    stripAccents alphabet "" = Ok "".
Proof.
  intros alphabet caseval. repeat split.
Qed.

(** ** Padding and the sort key *)

Lemma zeroPadLoop_exit (turns min : nat) :
  forall s, min <= turns + String.length s ->
    JS.length_lt (zeroPadLoop turns min (JS.Str s)) min = false.
Proof.
  induction turns as [|k IH]; intros s H; simpl.
  - unfold JS.length_lt. simpl. apply Nat.ltb_ge. lia.
  - destruct (JS.length_lt (JS.Str s) min) eqn:E; [|exact E].
    apply IH. simpl. lia.
Qed.

(** [min] turns are enough: [zeroPad] returns with the loop test false. *)
Lemma zeroPad_loop_exit (min : nat) (v : JS.value) :
  JS.length_lt (zeroPad min v) min = false.
Proof.
  unfold zeroPad. destruct v as [n|s].
  - destruct min; reflexivity.
  - apply zeroPadLoop_exit. lia.
Qed.

(** A number has no [length]: it is returned as it came. *)
Lemma zeroPad_number (min : nat) (n : Z) : zeroPad min (JS.Num n) = JS.Num n.
Proof. unfold zeroPad. destruct min; reflexivity. Qed.

(** On the numeral of a one-digit number the padding does take place. *)
Lemma zeroPad_numeral :
  zeroPad 2 (JS.Str (JS.number_toString 1)) = JS.Str "01".
Proof. reflexivity. Qed.

(** The sort key is the concatenation of the numerals of the sort bases. *)
Lemma sortLoop_numerals (alphabet : Alphabet) (syms : list string) :
  forall value,
    sortLoop alphabet syms value =
    (bases <- mapR (getSortBase alphabet) syms ;;
     Ok (value ++ JS.join (map JS.number_toString bases))).
Proof.
  induction syms as [|s syms IH]; intros value; cbn [sortLoop mapR bind].
  - cbn [map]. now rewrite append_empty_r.
  - destruct (getSortBase alphabet s) as [b|m]; cbn [bind]; [|reflexivity].
    rewrite IH, zeroPad_number. cbn [JS.toString].
    destruct (mapR (getSortBase alphabet) syms) as [bs|m]; cbn [bind map];
      [|reflexivity].
    now rewrite join_cons, append_assoc.
Qed.

Lemma sortValue_numerals (alphabet : Alphabet) (str : string) :
  sortValue alphabet str =
  (bases <- sortBases alphabet str ;;
   Ok (JS.join (map JS.number_toString bases))).
Proof.
  unfold sortValue, sortBases.
  destruct (splitSymbols alphabet str) as [syms|m]; cbn [bind];
    [|reflexivity].
  rewrite sortLoop_numerals.
  destruct (mapR (getSortBase alphabet) syms); reflexivity.
Qed.

(** C1.  On the example table the sort key of [aB] is [12]: the sort bases
    1 and 2 reach [zeroPad] as numbers and are appended without padding, so
    the key is not [0102]. *)
Theorem sortValue_example_unpadded :
  sortValue exampleAlphabet "aB" = Ok "12" /\
  sortValue exampleAlphabet "aB" <> Ok "0102".
Proof.
  split; [reflexivity|]. intros H. vm_compute in H. discriminate.
Qed.

(** C4.  With the sort bases 2 and 10 the text [a] comes before the text [b]
    in the intended order, and its sort key [2] does not come before the
    sort key [10] of [b]. *)
Theorem sortValue_order_broken :
  sortBases twoAndTen "a" = Ok [2%Z] /\
  sortBases twoAndTen "b" = Ok [10%Z] /\
  basesBefore [2%Z] [10%Z] = true /\
  sortValue twoAndTen "a" = Ok "2" /\
  sortValue twoAndTen "b" = Ok "10" /\
  String.ltb "2" "10" = false.
Proof.
  repeat split.
Qed.

(** ** Case conversion *)

Section Filter.

Context {A : Type} (f : A -> bool).

Lemma filter_none (l : list A) :
  Forall (fun x => f x = false) l <-> filter f l = [].
Proof.
  induction l as [|x l IH]; simpl.
  - split; auto.
  - destruct (f x) eqn:E; split; intros H.
    + inversion H; subst. congruence.
    + discriminate.
    + inversion H; subst. now apply IH.
    + constructor; [assumption | now apply IH].
Qed.

Lemma filter_single (l : list A) (e : A) :
  filter f l = [e] <->
  exists l1 l2, l = (l1 ++ e :: l2)%list /\ f e = true /\
                Forall (fun x => f x = false) (l1 ++ l2)%list.
Proof.
  split.
  - induction l as [|x l IH]; simpl; [discriminate|].
    destruct (f x) eqn:E; intros H.
    + inversion H; subst. exists [], l. repeat split; auto.
      now apply filter_none.
    + destruct (IH H) as (l1 & l2 & -> & He & Hall).
      exists (x :: l1), l2. repeat split; auto.
      simpl. now constructor.
  - intros (l1 & l2 & -> & He & Hall).
    apply Forall_app in Hall. destruct Hall as [H1 H2].
    apply filter_none in H1. apply filter_none in H2.
    rewrite filter_app. simpl. now rewrite H1, He, H2.
Qed.

Lemma filter_several (l1 l2 l3 : list A) (e1 e2 : A) :
  f e1 = true -> f e2 = true ->
  1 < List.length (filter f (l1 ++ e1 :: l2 ++ e2 :: l3)%list).
Proof.
  intros H1 H2. rewrite filter_app. simpl. rewrite H1, filter_app. simpl.
  rewrite H2, !length_app. simpl. rewrite length_app. simpl. lia.
Qed.

End Filter.

Lemma caseFilter_sibling (info : SymbolDefinition) (caseval : Z)
    (e : SymbolDefinition) :
  caseFilter (sortBase info) (accentRank info) caseval e = true <->
  caseSibling info caseval e.
Proof.
  unfold caseFilter, caseSibling.
  destruct (sortBase e =? sortBase info)%Z eqn:E1;
    destruct (accentRank e =? accentRank info)%Z eqn:E2;
    destruct (caseValue e =? caseval)%Z eqn:E3;
    destruct (caseValue e =? -1)%Z eqn:E4; simpl;
    rewrite ?Z.eqb_eq, ?Z.eqb_neq in *;
    split; try discriminate; try tauto; intros _; auto.
Qed.

Lemma caseFilter_not_sibling (info : SymbolDefinition) (caseval : Z)
    (l : Alphabet) :
  Forall (fun x => ~ caseSibling info caseval x) l <->
  Forall (fun x =>
    caseFilter (sortBase info) (accentRank info) caseval x = false) l.
Proof.
  split; intros H; eapply Forall_impl; try exact H; intros e He; simpl in *.
  - destruct (caseFilter _ _ _ e) eqn:E; [|reflexivity].
    apply caseFilter_sibling in E. contradiction.
  - intros Hs. apply caseFilter_sibling in Hs. congruence.
Qed.

Section SetCaseSymbol.

Variable alphabet : Alphabet.
Variable caseval : Z.

Lemma setCaseSymbol_none (s : string) (info : SymbolDefinition) :
  getSymbolInfo alphabet s = Ok info ->
  noSibling alphabet info caseval ->
  setCaseSymbol alphabet caseval s = Throw (noMatchingCharacter s).
Proof.
  intros Hinfo Hnone. unfold setCaseSymbol. rewrite Hinfo. simpl.
  apply caseFilter_not_sibling, filter_none in Hnone.
  now rewrite Hnone.
Qed.

Lemma setCaseSymbol_several (s : string) (info : SymbolDefinition) :
  getSymbolInfo alphabet s = Ok info ->
  severalSiblings alphabet info caseval ->
  setCaseSymbol alphabet caseval s = Throw (multipleMatchingCharacters s).
Proof.
  intros Hinfo (l1 & e1 & l2 & e2 & l3 & E & H1 & H2).
  unfold setCaseSymbol. rewrite Hinfo. simpl.
  apply caseFilter_sibling in H1. apply caseFilter_sibling in H2.
  pose proof (filter_several _ l1 l2 l3 e1 e2 H1 H2) as Hlen.
  rewrite <- E in Hlen.
  destruct (filter _ alphabet) as [|x xs]; [simpl in Hlen; lia|].
  apply Nat.ltb_lt in Hlen. now rewrite Hlen.
Qed.

Lemma setCaseSymbol_ok (s r : string) :
  setCaseSymbol alphabet caseval s = Ok r <->
  exists info e,
    getSymbolInfo alphabet s = Ok info /\
    onlySibling alphabet info caseval e /\ r = symbol e.
Proof.
  unfold setCaseSymbol, onlySibling. split.
  - intros H. apply bind_ok in H. destruct H as (info & Hinfo & H).
    simpl in H.
    destruct (filter _ alphabet) as [|x [|y ys]] eqn:Ef; simpl in H;
      try discriminate.
    inversion H; subst r.
    apply filter_single in Ef. destruct Ef as (l1 & l2 & E & Hx & Hall).
    exists info, x. split; [assumption|]. split; [|reflexivity].
    exists l1, l2. split; [assumption|]. split.
    + now apply caseFilter_sibling.
    + now apply caseFilter_not_sibling.
  - intros (info & e & Hinfo & (l1 & l2 & E & He & Hall) & ->).
    rewrite Hinfo. simpl.
    assert (Ef : filter (caseFilter (sortBase info) (accentRank info) caseval)
                   alphabet = [e]).
    { apply filter_single. exists l1, l2. split; [assumption|]. split.
      - now apply caseFilter_sibling.
      - now apply caseFilter_not_sibling. }
    now rewrite Ef.
Qed.

Lemma mapR_setCaseSymbol_ok (tokens : list string) :
  forall outs,
    mapR (setCaseSymbol alphabet caseval) tokens = Ok outs <->
    exists entries,
      Forall2 (fun s e => exists info,
                 getSymbolInfo alphabet s = Ok info /\
                 onlySibling alphabet info caseval e) tokens entries /\
      outs = map symbol entries.
Proof.
  induction tokens as [|s tokens IH]; intros outs.
  - simpl. split.
    + intros H. inversion H. exists []. split; [constructor | reflexivity].
    + intros (entries & HF & ->). inversion HF. reflexivity.
  - rewrite mapR_cons_ok. split.
    + intros (y & ys & Hy & Hys & ->).
      apply setCaseSymbol_ok in Hy. destruct Hy as (info & e & Hi & Ho & ->).
      apply IH in Hys. destruct Hys as (entries & HF & ->).
      exists (e :: entries). split; [|reflexivity].
      constructor; [now exists info | assumption].
    + intros (entries & HF & ->). inversion HF as [|s' e ts es He HF']; subst.
      destruct He as (info & Hi & Ho).
      exists (symbol e), (map symbol es). repeat split.
      * apply setCaseSymbol_ok. now exists info, e.
      * apply IH. now exists es.
Qed.

End SetCaseSymbol.

(** C6.  [setCase] resolves every token through the whole table: it
    returns a text exactly when every token has one and only one entry
    with its sort base and accent rank and with the target case or no
    case, and the text is then made of the symbols of those entries; at
    the first token with no such entry it throws the error of the missing
    character, and at the first token with two such entries it throws the
    error of the multiple characters, whatever the order of the table.
    This holds for every target case, 0 and 1 among them. *)
Theorem setCase_exactly_one_match :
  forall (alphabet : Alphabet) (text : string) (caseval : Z)
         (tokens : list string),
    splitSymbols alphabet text = Ok tokens ->
    (forall r,
        setCase alphabet text caseval = Ok r <->
        exists entries,
          Forall2 (fun s e => exists info,
                     getSymbolInfo alphabet s = Ok info /\
                     onlySibling alphabet info caseval e) tokens entries /\
          r = JS.join (map symbol entries)) /\
    (forall pre s post outs info,
        tokens = (pre ++ s :: post)%list ->
        mapR (setCaseSymbol alphabet caseval) pre = Ok outs ->
        getSymbolInfo alphabet s = Ok info ->
        (noSibling alphabet info caseval ->
         setCase alphabet text caseval = Throw (noMatchingCharacter s)) /\
        (severalSiblings alphabet info caseval ->
         setCase alphabet text caseval
           = Throw (multipleMatchingCharacters s))).
Proof.
  intros alphabet text caseval tokens Hsplit. unfold setCase.
  rewrite Hsplit. cbn [bind]. split.
  - intros r. split.
    + intros H. apply bind_ok in H. destruct H as (outs & Hmap & Hr).
      inversion Hr; subst r.
      apply mapR_setCaseSymbol_ok in Hmap.
      destruct Hmap as (entries & HF & ->). now exists entries.
    + intros (entries & HF & ->).
      assert (Hmap : mapR (setCaseSymbol alphabet caseval) tokens
                     = Ok (map symbol entries)).
      { apply mapR_setCaseSymbol_ok. now exists entries. }
      now rewrite Hmap.
  - intros pre s post outs info -> Hpre Hinfo. split; intros H.
    + rewrite (mapR_app_throw _ pre s post outs _ Hpre
                 (setCaseSymbol_none alphabet caseval s info Hinfo H)).
      reflexivity.
    + rewrite (mapR_app_throw _ pre s post outs _ Hpre
                 (setCaseSymbol_several alphabet caseval s info Hinfo H)).
      reflexivity.
Qed.

Lemma setCase_exactly_one_match_witness :
  splitSymbols twoUpper "a" = Ok ["a"] /\
  setCase twoUpper "a" 1 = Throw (multipleMatchingCharacters "a").
Proof.
  split; [reflexivity|].
  apply (proj2 (setCase_exactly_one_match twoUpper "a" 1 ["a"] eq_refl)
           [] "a" [] [] (mkSymbol "a" None 1 0 0) eq_refl eq_refl eq_refl).
  exists [mkSymbol "a" None 1 0 0], (mkSymbol "A" None 1 0 1), [],
         (mkSymbol "Q" None 1 0 1), [].
  unfold caseSibling. simpl. repeat split; auto.
Defined.

(** ** Accent removal *)

Lemma unaccentedOf_sibling (sym e : SymbolDefinition) :
  unaccentedOf sym e = true <-> unaccentedSibling sym e.
Proof.
  unfold unaccentedOf, unaccentedSibling.
  rewrite !andb_true_iff, !Z.eqb_eq. tauto.
Qed.

Lemma removeAccent_from_none (sym : SymbolDefinition) (entries : Alphabet) :
  Forall (fun e => ~ unaccentedSibling sym e) entries ->
  removeAccent_from entries sym = Throw (noUnaccented (symbol sym)).
Proof.
  induction entries as [|s rest IH]; intros H; simpl; [reflexivity|].
  inversion H as [|? ? Hs Hrest]; subst.
  destruct (unaccentedOf sym s) eqn:E.
  - apply unaccentedOf_sibling in E. contradiction.
  - now apply IH.
Qed.

Lemma removeAccent_from_first (sym e : SymbolDefinition)
    (l1 l2 : Alphabet) :
  Forall (fun x => ~ unaccentedSibling sym x) l1 ->
  unaccentedSibling sym e ->
  removeAccent_from (l1 ++ e :: l2)%list sym = Ok (symbol e).
Proof.
  induction l1 as [|s l1 IH]; intros H He; simpl.
  - apply unaccentedOf_sibling in He. now rewrite He.
  - inversion H as [|? ? Hs Hrest]; subst.
    destruct (unaccentedOf sym s) eqn:E.
    + apply unaccentedOf_sibling in E. contradiction.
    + now apply IH.
Qed.

(** A result of the scan is the symbol of an unaccented sibling in the
    table. *)
Lemma removeAccent_from_ok (sym : SymbolDefinition) (entries : Alphabet)
    (r : string) :
  removeAccent_from entries sym = Ok r ->
  exists e, In e entries /\ unaccentedSibling sym e /\ r = symbol e.
Proof.
  induction entries as [|s rest IH]; simpl; [discriminate|].
  destruct (unaccentedOf sym s) eqn:E; intros H.
  - inversion H. exists s. repeat split; auto.
    all: apply unaccentedOf_sibling in E; apply E.
  - destruct (IH H) as (e & Hin & He & ->). exists e. auto.
Qed.

(** C7, as the code has it.  For an accented symbol definition,
    [removeSymbolAccent] throws the error of the missing unaccented form
    when no entry has the same sort base, accent rank 0 and the same case;
    otherwise it returns the symbol of the first such entry in table
    order, whether or not later entries match as well. *)
Theorem removeSymbolAccent_first_match :
  forall (alphabet : Alphabet) (sym : SymbolDefinition),
    accentRank sym <> 0%Z ->
    (Forall (fun e => ~ unaccentedSibling sym e) alphabet ->
     removeSymbolAccent alphabet sym = Throw (noUnaccented (symbol sym))) /\
    (forall l1 e l2,
        alphabet = (l1 ++ e :: l2)%list ->
        Forall (fun x => ~ unaccentedSibling sym x) l1 ->
        unaccentedSibling sym e ->
        removeSymbolAccent alphabet sym = Ok (symbol e)).
Proof.
  intros alphabet sym Hacc. unfold removeSymbolAccent.
  apply Z.eqb_neq in Hacc. rewrite Hacc. split.
  - apply removeAccent_from_none.
  - intros l1 e l2 -> H1 He. now apply removeAccent_from_first.
Qed.

Lemma removeSymbolAccent_first_match_witness :
  accentRank (mkSymbol "x" None 5 1 0) <> 0%Z /\
  removeSymbolAccent twoUnaccented (mkSymbol "x" None 5 1 0) = Ok "e".
Proof.
  assert (Hacc : accentRank (mkSymbol "x" None 5 1 0) <> 0%Z)
    by (simpl; lia).
  split; [exact Hacc|].
  apply (proj2 (removeSymbolAccent_first_match twoUnaccented _ Hacc)
           [] (mkSymbol "e" None 5 0 0)
           [mkSymbol "f" None 5 0 0; mkSymbol "x" None 5 1 0]).
  - reflexivity.
  - constructor.
  - unfold unaccentedSibling. simpl. auto.
Defined.

(** C7, against the claim.  In [twoUnaccented] the entries [e] and [f] both
    have the sort base and case of the accented [x] and accent rank 0, and
    [removeSymbolAccent] returns [e] without any error. *)
Lemma removeSymbolAccent_tolerates_two_matches :
  let sym := mkSymbol "x" None 5 1 0 in
  In sym twoUnaccented /\
  accentRank sym <> 0%Z /\
  unaccentedSibling sym (mkSymbol "e" None 5 0 0) /\
  unaccentedSibling sym (mkSymbol "f" None 5 0 0) /\
  twoUnaccented = [mkSymbol "e" None 5 0 0; mkSymbol "f" None 5 0 0; sym] /\
  removeSymbolAccent twoUnaccented sym = Ok "e".
Proof.
  unfold unaccentedSibling. simpl. repeat split; auto; lia.
Qed.

(** ** Converting a converted text *)

Section MapR.

Context {A B : Type}.

Lemma mapR_ok_Forall2 (f : A -> result B) (xs : list A) :
  forall ys, mapR f xs = Ok ys -> Forall2 (fun x y => f x = Ok y) xs ys.
Proof.
  induction xs as [|x xs IH]; intros ys H.
  - inversion H. constructor.
  - apply mapR_cons_ok in H. destruct H as (y & ys' & Hy & Hys & ->).
    constructor; auto.
Qed.

Lemma mapR_ok_agree (f g : A -> result B) (xs ys : list A) :
  Forall2 (fun x y => forall l, f y = Ok l <-> g x = Ok l) xs ys ->
  forall l, mapR f ys = Ok l <-> mapR g xs = Ok l.
Proof.
  induction 1 as [|x y xs ys Hxy HF IH]; intros l; [reflexivity|].
  rewrite !mapR_cons_ok. split.
  - intros (b & bs & Hb & Hbs & ->). exists b, bs. repeat split.
    + now apply Hxy.
    + now apply IH.
  - intros (b & bs & Hb & Hbs & ->). exists b, bs. repeat split.
    + now apply Hxy.
    + now apply IH.
Qed.

End MapR.

Lemma mapR_fixed {A : Type} (f : A -> result A) (l : list A) :
  Forall (fun y => f y = Ok y) l -> mapR f l = Ok l.
Proof.
  induction 1 as [|y l Hy HF IH]; simpl; [reflexivity|].
  now rewrite Hy, IH.
Qed.

Section DistinctSymbols.

Variable alphabet : Alphabet.
Hypothesis distinct : NoDup (getSymbols alphabet).

(** With pairwise distinct symbols, the lookup of the symbol of an entry
    finds that entry. *)
Lemma getSymbolInfo_entry (e : SymbolDefinition) :
  In e alphabet -> getSymbolInfo alphabet (symbol e) = Ok e.
Proof.
  unfold getSymbolInfo, getSymbols in *.
  induction alphabet as [|x rest IH]; intros Hin; [contradiction|].
  simpl in distinct. inversion distinct as [|? ? Hx Hrest]; subst.
  simpl. destruct Hin as [->|Hin].
  - now rewrite String.eqb_refl.
  - destruct (String.eqb (symbol x) (symbol e)) eqn:E.
    + apply String.eqb_eq in E. exfalso. apply Hx. rewrite E.
      now apply in_map.
    + now apply IH.
Qed.

(** A case form of a token resolves, for any further target case, like
    the token itself. *)
Lemma setCaseSymbol_again (c1 c2 : Z) (s u : string) :
  setCaseSymbol alphabet c1 s = Ok u ->
  forall l, setCaseSymbol alphabet c2 u = Ok l <->
            setCaseSymbol alphabet c2 s = Ok l.
Proof.
  intros Hu l. apply setCaseSymbol_ok in Hu.
  destruct Hu as (info & e & Hinfo & (l1 & l2 & E & He & _) & ->).
  assert (Hin : In e alphabet) by (rewrite E; apply in_elt).
  unfold setCaseSymbol.
  rewrite (getSymbolInfo_entry e Hin), Hinfo. cbn [bind].
  destruct He as (-> & -> & _).
  destruct (filter _ alphabet) as [|x [|y ys]]; simpl;
    split; intros H; congruence.
Qed.

(** The unaccented form of a token is its own unaccented form. *)
Lemma stripSymbol_again (x r : string) :
  stripSymbol alphabet x = Ok r -> stripSymbol alphabet r = Ok r.
Proof.
  unfold stripSymbol. intros H. apply bind_ok in H.
  destruct H as (s & Hs & Hr). unfold removeSymbolAccent in Hr.
  destruct (accentRank s =? 0)%Z eqn:Eacc.
  - inversion Hr; subst r.
    assert (Hsym : symbol s = x).
    { unfold getSymbolInfo in Hs. clear - Hs.
      induction alphabet as [|e rest IH]; simpl in Hs; [discriminate|].
      destruct (String.eqb (symbol e) x) eqn:E.
      - inversion Hs; subst. now apply String.eqb_eq.
      - now apply IH. }
    rewrite Hsym, Hs. cbn [bind]. unfold removeSymbolAccent.
    now rewrite Eacc, Hsym.
  - apply removeAccent_from_ok in Hr.
    destruct Hr as (e & Hin & (_ & Hacc & _) & ->).
    rewrite (getSymbolInfo_entry e Hin). cbn [bind].
    unfold removeSymbolAccent. apply Z.eqb_eq in Hacc. now rewrite Hacc.
Qed.

End DistinctSymbols.

Lemma setCase_caseTokens (alphabet : Alphabet) (str : string) (caseval : Z) :
  setCase alphabet str caseval =
  (newcased <- caseTokens alphabet str caseval ;; Ok (JS.join newcased)).
Proof.
  unfold setCase, caseTokens.
  destruct (splitSymbols alphabet str); reflexivity.
Qed.

Lemma stripLoop_mapR (alphabet : Alphabet) (syms : list string) :
  forall acc,
    stripLoop alphabet syms acc =
    (rs <- mapR (stripSymbol alphabet) syms ;; Ok (acc ++ JS.join rs)).
Proof.
  induction syms as [|x syms IH]; intros acc; cbn [stripLoop mapR bind].
  - now rewrite append_empty_r.
  - unfold stripSymbol at 1.
    destruct (getSymbolInfo alphabet x) as [s|m]; cbn [bind]; [|reflexivity].
    destruct (removeSymbolAccent alphabet s) as [r|m]; cbn [bind];
      [|reflexivity].
    rewrite IH.
    destruct (mapR (stripSymbol alphabet) syms) as [rs|m]; cbn [bind];
      [|reflexivity].
    now rewrite join_cons, append_assoc.
Qed.

Lemma stripAccents_stripTokens (alphabet : Alphabet) (str : string) :
  stripAccents alphabet str =
  (rs <- stripTokens alphabet str ;; Ok (JS.join rs)).
Proof.
  unfold stripAccents, stripTokens.
  destruct (splitSymbols alphabet str) as [syms|m]; cbn [bind];
    [|reflexivity].
  rewrite stripLoop_mapR.
  destruct (mapR (stripSymbol alphabet) syms); reflexivity.
Qed.

(** C8, as the code has it.  In an alphabet whose symbols are pairwise
    distinct, let [toUpperCase] succeed on a text and let its result split
    again into exactly the upper-case forms of the tokens of the text.
    Then [toLowerCase] returns a text on that result exactly when it does
    on the original text, and the same one.  The case values of the
    symbols of the text play no part. *)
Theorem toLowerCase_toUpperCase :
  forall (alphabet : Alphabet) (text upper : string) (utoks : list string),
    NoDup (getSymbols alphabet) ->
    toUpperCase alphabet text = Ok upper ->
    caseTokens alphabet text 1 = Ok utoks ->
    splitSymbols alphabet upper = Ok utoks ->
    forall l,
      toLowerCase alphabet upper = Ok l <-> toLowerCase alphabet text = Ok l.
Proof.
  intros alphabet text upper utoks Hdistinct Hupper Hutoks Hsplit l.
  unfold toLowerCase, setCase at 1. rewrite Hsplit. cbn [bind].
  unfold caseTokens in Hutoks. apply bind_ok in Hutoks.
  destruct Hutoks as (toks & Htoks & Hmap).
  unfold setCase. rewrite Htoks. cbn [bind].
  assert (Hagree : forall outs,
             mapR (setCaseSymbol alphabet 0) utoks = Ok outs <->
             mapR (setCaseSymbol alphabet 0) toks = Ok outs).
  { apply mapR_ok_agree. apply mapR_ok_Forall2 in Hmap.
    eapply Forall2_impl; [|exact Hmap]. intros s u Hu.
    now apply (setCaseSymbol_again alphabet Hdistinct 1 0 s u). }
  destruct (mapR (setCaseSymbol alphabet 0) utoks) as [o1|m1] eqn:E1;
    destruct (mapR (setCaseSymbol alphabet 0) toks) as [o2|m2] eqn:E2;
    cbn [bind].
  - assert (Ok o1 = Ok o2 :> result (list string))
      by (apply Hagree; reflexivity).
    split; congruence.
  - assert (H : @Throw (list string) m2 = Ok o1)
      by (apply Hagree; reflexivity).
    discriminate.
  - assert (H : @Throw (list string) m1 = Ok o2)
      by (apply Hagree; reflexivity).
    discriminate.
  - split; discriminate.
Qed.

Lemma toLowerCase_toUpperCase_witness :
  toUpperCase exampleAlphabet "ab" = Ok "aB" /\
  (toLowerCase exampleAlphabet "aB" = Ok "ab" <->
   toLowerCase exampleAlphabet "ab" = Ok "ab").
Proof.
  split; [reflexivity|].
  apply (toLowerCase_toUpperCase exampleAlphabet "ab" "aB" ["a"; "B"]).
  - simpl. repeat constructor; simpl; intuition discriminate.
  - reflexivity.
  - reflexivity.
  - reflexivity.
Defined.

(** C8, against the claim.  Every symbol of [digraphUpper] has case value
    0 or 1.  The text [ab] is upper-cased to [AB], which is one symbol of
    the table and is lower-cased to [x], while [ab] itself is lower-cased
    to [ab]. *)
Lemma toLowerCase_toUpperCase_differs :
  caseBearing digraphUpper "ab" /\
  toUpperCase digraphUpper "ab" = Ok "AB" /\
  toLowerCase digraphUpper "AB" = Ok "x" /\
  toLowerCase digraphUpper "ab" = Ok "ab".
Proof.
  split; [|repeat split].
  exists ["a"; "b"]. split; [reflexivity|].
  repeat constructor.
  - exists (mkSymbol "a" None 1 0 0). split; [reflexivity | now left].
  - exists (mkSymbol "b" None 2 0 0). split; [reflexivity | now left].
Qed.

(** The distinctness of the symbols is needed as well: in [repeatedUpper]
    the upper-case form [A] of [a] is looked up as the other entry [A]. *)
Lemma toLowerCase_toUpperCase_repeated_symbol :
  caseTokens repeatedUpper "a" 1 = Ok ["A"] /\
  toUpperCase repeatedUpper "a" = Ok "A" /\
  splitSymbols repeatedUpper "A" = Ok ["A"] /\
  toLowerCase repeatedUpper "A" = Ok "z" /\
  toLowerCase repeatedUpper "a" = Ok "a".
Proof. repeat split. Qed.

(** C9, as the code has it.  In an alphabet whose symbols are pairwise
    distinct, let [stripAccents] succeed on a text and let its result split
    again into exactly the unaccented forms of the tokens of the text.
    Then [stripAccents] returns that result unchanged. *)
Theorem stripAccents_fixed_point :
  forall (alphabet : Alphabet) (text stripped : string)
         (stoks : list string),
    NoDup (getSymbols alphabet) ->
    stripAccents alphabet text = Ok stripped ->
    stripTokens alphabet text = Ok stoks ->
    splitSymbols alphabet stripped = Ok stoks ->
    stripAccents alphabet stripped = Ok stripped.
Proof.
  intros alphabet text stripped stoks Hdistinct Hstrip Hstoks Hsplit.
  rewrite stripAccents_stripTokens in Hstrip. rewrite Hstoks in Hstrip.
  inversion Hstrip as [Hjoin].
  rewrite stripAccents_stripTokens. unfold stripTokens.
  rewrite Hjoin, Hsplit. cbn [bind].
  unfold stripTokens in Hstoks. apply bind_ok in Hstoks.
  destruct Hstoks as (toks & _ & Hmap).
  assert (Hfix : mapR (stripSymbol alphabet) stoks = Ok stoks).
  { apply mapR_fixed. apply mapR_ok_Forall2 in Hmap.
    clear - Hmap Hdistinct.
    induction Hmap as [|x y xs ys Hxy HF IH]; constructor; auto.
    now apply (stripSymbol_again alphabet Hdistinct x y). }
  now rewrite Hfix.
Qed.

Lemma stripAccents_fixed_point_witness :
  stripAccents accentDigraph "xc" = Ok "ac" /\
  stripAccents accentDigraph "ac" = Ok "ac".
Proof.
  split; [reflexivity|].
  apply (stripAccents_fixed_point accentDigraph "xc" "ac" ["a"; "c"]).
  - simpl. repeat constructor; simpl; intuition discriminate.
  - reflexivity.
  - reflexivity.
  - reflexivity.
Defined.

(** C9, against the claim.  In [accentDigraph] the text [xb] is stripped to
    [ab]; [ab] is one accented symbol of the table and is stripped to
    [c]. *)
Lemma stripAccents_not_idempotent :
  stripAccents accentDigraph "xb" = Ok "ab" /\
  stripAccents accentDigraph "ab" = Ok "c".
Proof. repeat split. Qed.

(** The distinctness of the symbols is needed as well: in
    [repeatedUnaccented] the unaccented form [b] of [a] is looked up as the
    accented entry [b]. *)
Lemma stripAccents_repeated_symbol :
  stripTokens repeatedUnaccented "a" = Ok ["b"] /\
  stripAccents repeatedUnaccented "a" = Ok "b" /\
  splitSymbols repeatedUnaccented "b" = Ok ["b"] /\
  stripAccents repeatedUnaccented "b" = Ok "c".
Proof. repeat split. Qed.

(** * Further properties of the module *)

(** ** [zeroPad] *)

Lemma zeros_shift (n : nat) (s : string) :
  zeros n ++ String "0" s = String "0" (zeros n ++ s).
Proof. induction n as [|n IH]; simpl; [reflexivity | now rewrite IH]. Qed.

Lemma length_zeros (n : nat) : String.length (zeros n) = n.
Proof. induction n as [|n IH]; simpl; [reflexivity | now rewrite IH]. Qed.

Lemma zeroPadLoop_string (turns min : nat) :
  forall s, min - String.length s <= turns ->
    zeroPadLoop turns min (JS.Str s)
    = JS.Str (zeros (min - String.length s) ++ s).
Proof.
  induction turns as [|k IH]; intros s H.
  - simpl. replace (min - String.length s) with 0 by lia. reflexivity.
  - cbn [zeroPadLoop]. unfold JS.length_lt. cbn [JS.length_of JS.toString].
    destruct (Nat.ltb (String.length s) min) eqn:E.
    + apply Nat.ltb_lt in E. rewrite IH by (simpl; lia). simpl.
      replace (min - String.length s) with (S (min - S (String.length s)))
        by lia.
      simpl. now rewrite zeros_shift.
    + apply Nat.ltb_ge in E.
      replace (min - String.length s) with 0 by lia. reflexivity.
Qed.

(** X1.  On a string [zeroPad] prepends exactly the zeros missing to the
    length [min]; a string of that length or longer is returned as it is. *)
Theorem zeroPad_string :
  forall (min : nat) (s : string),
    zeroPad min (JS.Str s) = JS.Str (zeros (min - String.length s) ++ s).
Proof.
  intros min s. unfold zeroPad. apply zeroPadLoop_string. lia.
Qed.

(** X2.  Padding a padded value changes nothing, for strings and for
    numbers. *)
Theorem zeroPad_idempotent :
  forall (min : nat) (v : JS.value),
    zeroPad min (zeroPad min v) = zeroPad min v.
Proof.
  intros min [n|s].
  - now rewrite !zeroPad_number.
  - unfold zeroPad. rewrite (zeroPadLoop_string min min s) by lia.
    rewrite zeroPadLoop_string by lia.
    rewrite length_append, length_zeros.
    replace (min - (min - String.length s + String.length s)) with 0 by lia.
    reflexivity.
Qed.

(** ** [validSymbolPart] and the lookups *)

Lemma substr0_split (n : nat) :
  forall r, exists q, r = JS.substr0 r n ++ q.
Proof.
  unfold JS.substr0. induction n as [|n IH]; intros [|c r]; simpl.
  - now exists "".
  - now exists (String c r).
  - now exists "".
  - destruct (IH r) as (q & Hq). exists q. now rewrite <- Hq.
Qed.

Lemma substr0_startsWith (r p : string) :
  JS.substr0 r (String.length p) = p <-> startsWith r p.
Proof.
  unfold startsWith. split.
  - intros H. destruct (substr0_split (String.length p) r) as (q & Hq).
    exists q. now rewrite H in Hq.
  - intros (q & ->). apply substr0_append.
Qed.

Lemma validSymbolPart_true (reference : list string) (p : string) :
  validSymbolPart reference p = true <->
  exists r, In r reference /\ startsWith r p.
Proof.
  unfold validSymbolPart. rewrite existsb_exists. split.
  - intros (r & Hin & H). exists r. split; [assumption|].
    apply substr0_startsWith. now apply String.eqb_eq.
  - intros (r & Hin & H). exists r. split; [assumption|].
    apply String.eqb_eq. now apply substr0_startsWith.
Qed.

(** X3.  The test [reference[i].substr(0, str.length) === str] of
    [validSymbolPart] succeeds exactly when some symbol of the table begins
    with [str]. *)
Theorem validSymbolPart_startsWith :
  forall (alphabet : Alphabet) (str : string),
    validSymbolPart (getSymbols alphabet) str = true <->
    exists e, In e alphabet /\ startsWith (symbol e) str.
Proof.
  intros alphabet str. rewrite validSymbolPart_true. unfold getSymbols.
  split.
  - intros (r & Hin & H). apply in_map_iff in Hin.
    destruct Hin as (e & <- & He). now exists e.
  - intros (e & He & H). exists (symbol e). split; [|assumption].
    now apply in_map.
Qed.

Lemma getSymbolInfo_ok (alphabet : Alphabet) (s : string)
    (e : SymbolDefinition) :
  getSymbolInfo alphabet s = Ok e <->
  exists l1 l2,
    alphabet = (l1 ++ e :: l2)%list /\ symbol e = s /\
    ~ In s (getSymbols l1).
Proof.
  unfold getSymbolInfo. induction alphabet as [|x rest IH]; simpl.
  - split; [discriminate|]. intros (l1 & l2 & E & _). destruct l1; discriminate.
  - destruct (String.eqb (symbol x) s) eqn:Ex.
    + apply String.eqb_eq in Ex. split.
      * intros H. inversion H; subst x. exists [], rest. simpl. auto.
      * intros (l1 & l2 & E & Hs & Hnot). destruct l1 as [|y l1].
        -- simpl in E. now inversion E.
        -- simpl in E. inversion E; subst y. exfalso. apply Hnot. simpl.
           now left.
    + apply String.eqb_neq in Ex. rewrite IH. split.
      * intros (l1 & l2 & -> & Hs & Hnot). exists (x :: l1), l2.
        repeat split; auto. simpl. intros [H|H]; auto.
      * intros (l1 & l2 & E & Hs & Hnot). destruct l1 as [|y l1].
        -- simpl in E. inversion E; subst x. contradiction.
        -- simpl in E. inversion E; subst y. exists l1, l2.
           repeat split; auto. intros H. apply Hnot. simpl. now right.
Qed.

Lemma getSymbolInfo_throw (alphabet : Alphabet) (s m : string) :
  getSymbolInfo alphabet s = Throw m <->
  ~ listed alphabet s /\ m = unknownSymbolInfo s.
Proof.
  unfold getSymbolInfo, listed, getSymbols.
  induction alphabet as [|x rest IH]; simpl.
  - split.
    + intros H. inversion H. auto.
    + intros (_ & ->). reflexivity.
  - destruct (String.eqb (symbol x) s) eqn:Ex.
    + apply String.eqb_eq in Ex. split; [discriminate|].
      intros (Hnot & _). exfalso. apply Hnot. now left.
    + apply String.eqb_neq in Ex. rewrite IH. split.
      * intros (Hnot & ->). split; [|reflexivity]. intros [H|H]; auto.
      * intros (Hnot & ->). split; [|reflexivity]. intros H. apply Hnot.
        now right.
Qed.

Lemma getSymbolInfo_listed (alphabet : Alphabet) (s : string) :
  (exists e, getSymbolInfo alphabet s = Ok e) <-> listed alphabet s.
Proof.
  destruct (getSymbolInfo alphabet s) as [e|m] eqn:E; split.
  - intros _. apply getSymbolInfo_ok in E.
    destruct E as (l1 & l2 & -> & <- & _). unfold listed, getSymbols.
    apply in_map. apply in_elt.
  - intros _. now exists e.
  - intros (e & He). discriminate.
  - intros H. apply getSymbolInfo_throw in E. destruct E as [Hnot _].
    contradiction.
Qed.

(** X4.  [getSymbolInfo] returns an entry exactly when it is the first
    entry of the table, in table order, whose symbol is the one asked
    for. *)
Theorem getSymbolInfo_first_entry :
  forall (alphabet : Alphabet) (s : string) (e : SymbolDefinition),
    getSymbolInfo alphabet s = Ok e <->
    exists l1 l2,
      alphabet = (l1 ++ e :: l2)%list /\ symbol e = s /\
      ~ In s (getSymbols l1).
Proof. exact getSymbolInfo_ok. Qed.

(** X5.  [getSymbolInfo] and [getSortBase] throw exactly when no entry has
    the symbol asked for, both with the error naming that symbol. *)
Theorem lookup_unknown_symbol :
  forall (alphabet : Alphabet) (s m : string),
    (getSymbolInfo alphabet s = Throw m <->
     ~ listed alphabet s /\ m = unknownSymbolInfo s) /\
    (getSortBase alphabet s = Throw m <->
     ~ listed alphabet s /\ m = unknownSymbolInfo s).
Proof.
  intros alphabet s m. split; [apply getSymbolInfo_throw|].
  rewrite <- getSymbolInfo_throw. unfold getSortBase.
  destruct (getSymbolInfo alphabet s); simpl; split; congruence.
Qed.

(** X6.  In a table whose symbols are pairwise distinct, looking up the
    symbol of an entry returns that entry. *)
Theorem getSymbolInfo_of_entry :
  forall (alphabet : Alphabet) (e : SymbolDefinition),
    NoDup (getSymbols alphabet) ->
    In e alphabet ->
    getSymbolInfo alphabet (symbol e) = Ok e /\
    getSortBase alphabet (symbol e) = Ok (sortBase e).
Proof.
  intros alphabet e Hdistinct Hin. unfold getSortBase.
  rewrite (getSymbolInfo_entry alphabet Hdistinct e Hin). now split.
Qed.

Lemma getSymbolInfo_of_entry_witness :
  getSymbolInfo cree "Q" = Ok (mkSymbol "Q" None 10 1 1) /\
  getSortBase cree "Q" = Ok 10%Z.
Proof.
  apply (getSymbolInfo_of_entry cree (mkSymbol "Q" None 10 1 1)).
  - simpl. repeat constructor; simpl; intuition discriminate.
  - simpl. tauto.
Defined.

(** ** More on the tokenizer *)

Lemma splitSymbols_join (alphabet : Alphabet) (text : string)
    (tokens : list string) :
  splitSymbols alphabet text = Ok tokens -> JS.join tokens = text.
Proof.
  intros H. unfold splitSymbols in H.
  apply bind_ok in H. destruct H as (st & Hloop & Hret).
  inversion Hret; subst tokens; clear Hret.
  apply splitLoop_scanned in Hloop.
  rewrite <- (flush_scanned st) in Hloop. unfold scanned in Hloop.
  rewrite flush_buffer, append_empty_r in Hloop. exact Hloop.
Qed.

Lemma append_char_not_empty (b : string) (c : ascii) :
  b ++ String c "" <> "".
Proof. destruct b; discriminate. Qed.

Section MaximalMunch.

Variable reference : list string.
Variable str : string.

Lemma maximalMunch_grow (l : list string) (b q : string) :
  b <> "" ->
  maximalMunch reference (l ++ [b]) ->
  maximalMunch reference (l ++ [b ++ q]).
Proof.
  intros Hb. induction l as [|t1 l IH]; intros H.
  - simpl. auto.
  - destruct l as [|t2 l].
    + simpl in *. destruct H as [H _]. repeat split; auto.
      destruct b as [|c b]; [contradiction|]. exact H.
    + destruct H as [H1 H2]. split; [exact H1|]. apply IH. exact H2.
Qed.

Lemma maximalMunch_next (l : list string) (b t : string) :
  cannotExtend reference b t ->
  maximalMunch reference (l ++ [b]) ->
  maximalMunch reference ((l ++ [b]) ++ [t]).
Proof.
  intros Hbt. induction l as [|t1 l IH]; intros H.
  - simpl. auto.
  - destruct l as [|t2 l].
    + simpl in *. destruct H as [H _]. auto.
    + destruct H as [H1 H2]. split; [exact H1|]. apply IH. exact H2.
Qed.

Lemma splitStep_munching (st st' : scan) (c : ascii) :
  munching reference st ->
  splitStep reference str st c = Ok st' ->
  munching reference st' /\ buffer st' <> "".
Proof.
  intros [Hm He]. unfold splitStep.
  destruct (validSymbolPart reference (buffer st ++ String c "")) eqn:Hext.
  - intros H. inversion H; subst st'; clear H. unfold munching. simpl.
    split; [|apply append_char_not_empty]. split.
    + destruct (buffer st) as [|x b] eqn:Eb.
      * rewrite (He eq_refl). simpl. auto.
      * apply maximalMunch_grow; [discriminate | exact Hm].
    + intros H. now apply append_char_not_empty in H.
  - destruct (validSymbolPart reference (String c "")) eqn:Hnew;
      [|discriminate].
    intros H. inversion H; subst st'; clear H. unfold munching. simpl.
    split; [|discriminate]. split; [|discriminate].
    unfold flush. destruct (buffer st) as [|x b] eqn:Eb.
    + rewrite (He eq_refl). simpl. auto.
    + simpl. apply maximalMunch_next; [|exact Hm]. exact Hext.
Qed.

Lemma splitLoop_munching (rest : string) :
  forall st st',
    munching reference st ->
    splitLoop reference str st rest = Ok st' ->
    munching reference st'.
Proof.
  induction rest as [|c rest IH]; intros st st' Hm H; simpl in H.
  - now inversion H; subst.
  - apply bind_ok in H. destruct H as (st1 & Hstep & Hloop).
    destruct (splitStep_munching _ _ _ Hm Hstep) as [Hm1 _].
    now apply (IH st1 st').
Qed.

(** A text all of whose characters begin some symbol is never refused. *)
Lemma splitLoop_total (rest : string) :
  (forall c, occurs c rest = true ->
             validSymbolPart reference (String c "") = true) ->
  forall st, exists st', splitLoop reference str st rest = Ok st'.
Proof.
  induction rest as [|c rest IH]; intros Hall st; simpl.
  - now exists st.
  - assert (Hc : validSymbolPart reference (String c "") = true).
    { apply Hall. simpl. now rewrite Ascii.eqb_refl. }
    assert (Hrest : forall x, occurs x rest = true ->
                      validSymbolPart reference (String x "") = true).
    { intros x Hx. apply Hall. simpl. rewrite Hx. apply orb_true_r. }
    unfold splitStep. rewrite Hc.
    destruct (validSymbolPart reference (buffer st ++ String c ""));
      simpl; apply (IH Hrest).
Qed.

(** *** Tables in which no symbol begins another *)

Hypothesis free : prefixFree reference.

Lemma symbol_beginning_valid (t p q : string) :
  In t reference -> t = p ++ q -> validSymbolPart reference p = true.
Proof.
  intros Hin E. apply validSymbolPart_true. exists t. split; [assumption|].
  now exists q.
Qed.

Lemma symbol_not_extended (t : string) (c : ascii) :
  In t reference -> validSymbolPart reference (t ++ String c "") = false.
Proof.
  intros Hin.
  destruct (validSymbolPart reference (t ++ String c "")) eqn:E;
    [|reflexivity].
  apply validSymbolPart_true in E. destruct E as (r & Hr & q & E).
  rewrite append_assoc in E.
  assert (Heq : t = r).
  { apply (proj2 free t r Hin Hr). now exists (String c "" ++ q). }
  rewrite <- Heq in E. exfalso. apply (f_equal String.length) in E.
  rewrite length_append in E. simpl in E. lia.
Qed.

Lemma splitLoop_consume (q : string) :
  forall b syms rest,
    In (b ++ q) reference ->
    splitLoop reference str (mkScan syms b) (q ++ rest)
    = splitLoop reference str (mkScan syms (b ++ q)) rest.
Proof.
  induction q as [|c q IH]; intros b syms rest Hin.
  - simpl. now rewrite append_empty_r.
  - simpl. unfold splitStep. simpl.
    assert (E : b ++ String c q = (b ++ String c "") ++ q)
      by now rewrite append_assoc.
    rewrite (symbol_beginning_valid _ (b ++ String c "") q Hin E). simpl.
    rewrite E in Hin. rewrite (IH _ syms rest Hin). now rewrite <- E.
Qed.

Lemma splitLoop_symbols (toks : list string) :
  forall syms t,
    In t reference ->
    Forall (fun x => In x reference) toks ->
    exists st',
      splitLoop reference str (mkScan syms t) (JS.join toks) = Ok st' /\
      symbols (flush st') = (syms ++ t :: toks)%list.
Proof.
  induction toks as [|t2 toks IH]; intros syms t Hin Hall.
  - exists (mkScan syms t). split; [reflexivity|].
    unfold flush. simpl. destruct t as [|c t]; [|reflexivity].
    exfalso. now apply (proj1 free "" Hin).
  - inversion Hall as [|? ? Hin2 Hall']; subst.
    rewrite join_cons.
    destruct t2 as [|c q]; [exfalso; now apply (proj1 free "" Hin2)|].
    cbn [append splitLoop]. unfold splitStep. cbn [buffer symbols].
    rewrite (symbol_not_extended t c Hin).
    rewrite (symbol_beginning_valid (String c q) (String c "") q Hin2 eq_refl).
    cbn [bind].
    assert (Hflush : symbols (flush (mkScan syms t)) = (syms ++ [t])%list).
    { unfold flush. simpl. destruct t as [|x t]; [|reflexivity].
      exfalso. now apply (proj1 free "" Hin). }
    rewrite Hflush.
    rewrite (splitLoop_consume q (String c "") (syms ++ [t])%list
               (JS.join toks) Hin2).
    destruct (IH (syms ++ [t])%list (String c q) Hin2 Hall')
      as (st' & Hloop & Hsyms).
    exists st'. split; [exact Hloop|].
    rewrite Hsyms, <- app_assoc. reflexivity.
Qed.

End MaximalMunch.

(** X7.  Every token returned by [splitSymbols] is as long as the table
    lets it grow: a token followed by another one cannot take the first
    character of that one and still be the beginning of a symbol. *)
Theorem splitSymbols_maximal_munch :
  forall (alphabet : Alphabet) (text : string) (tokens : list string),
    splitSymbols alphabet text = Ok tokens ->
    maximalMunch (getSymbols alphabet) tokens.
Proof.
  intros alphabet text tokens H. unfold splitSymbols in H.
  apply bind_ok in H. destruct H as (st & Hloop & Hret).
  inversion Hret; subst tokens; clear Hret.
  apply splitLoop_munching in Hloop.
  - destruct Hloop as [Hm He]. unfold flush.
    destruct (buffer st) as [|c b] eqn:Eb.
    + rewrite (He eq_refl). simpl. exact I.
    + simpl. exact Hm.
  - unfold munching. simpl. auto.
Qed.

Lemma splitSymbols_maximal_munch_witness :
  maximalMunch (getSymbols digraphUpper) ["AB"; "a"; "B"].
Proof.
  apply (splitSymbols_maximal_munch digraphUpper "ABaB"). reflexivity.
Defined.

(** X8.  A text every character of which begins some symbol of the table
    is never refused by [splitSymbols]. *)
Theorem splitSymbols_total_on_covered_text :
  forall (alphabet : Alphabet) (text : string),
    (forall c, occurs c text = true ->
               validSymbolPart (getSymbols alphabet) (String c "") = true) ->
    exists tokens, splitSymbols alphabet text = Ok tokens.
Proof.
  intros alphabet text Hall. unfold splitSymbols.
  destruct (splitLoop_total (getSymbols alphabet) text text Hall
              (mkScan [] "")) as (st & Hst).
  rewrite Hst. simpl. now exists (symbols (flush st)).
Qed.

Lemma splitSymbols_total_on_covered_text_witness :
  exists tokens, splitSymbols exampleAlphabet "abBa" = Ok tokens.
Proof.
  apply (splitSymbols_total_on_covered_text exampleAlphabet "abBa").
  intros c Hc. cbn [occurs] in Hc.
  repeat (apply orb_true_iff in Hc; destruct Hc as [Hc|Hc];
          [apply Ascii.eqb_eq in Hc; subst c; reflexivity|]).
  discriminate Hc.
Defined.

(** X9.  In a table where no symbol is empty and none begins another,
    splitting the concatenation of symbols of the table gives back those
    symbols. *)
Theorem splitSymbols_of_joined_symbols :
  forall (alphabet : Alphabet) (tokens : list string),
    prefixFree (getSymbols alphabet) ->
    Forall (listed alphabet) tokens ->
    splitSymbols alphabet (JS.join tokens) = Ok tokens.
Proof.
  intros alphabet tokens Hfree Hall. unfold splitSymbols.
  destruct tokens as [|t toks]; [reflexivity|].
  inversion Hall as [|? ? Hin Hall']; subst.
  assert (Hrun : forall str, exists st',
             splitLoop (getSymbols alphabet) str (mkScan [] "")
               (JS.join (t :: toks)) = Ok st' /\
             symbols (flush st') = t :: toks).
  { intros str. rewrite join_cons.
    rewrite (splitLoop_consume (getSymbols alphabet) str t "" []
               (JS.join toks) Hin).
    exact (splitLoop_symbols (getSymbols alphabet) str Hfree toks [] t
             Hin Hall'). }
  destruct (Hrun (JS.join (t :: toks))) as (st' & Hloop & Hsyms).
  rewrite Hloop. simpl. now rewrite Hsyms.
Qed.

Lemma cree_prefixFree : prefixFree (getSymbols cree).
Proof.
  split.
  - simpl. intros r H.
    repeat (destruct H as [<-|H]; [discriminate|]). contradiction.
  - simpl. intros r1 r2 H1 H2 (q & E).
    repeat (destruct H1 as [<-|H1];
            [repeat (destruct H2 as [<-|H2];
                     [first [reflexivity | discriminate]|]);
             contradiction|]).
    contradiction.
Defined.

Lemma splitSymbols_of_joined_symbols_witness :
  splitSymbols cree "Qb-a" = Ok ["Q"; "b"; "-"; "a"].
Proof.
  apply (splitSymbols_of_joined_symbols cree ["Q"; "b"; "-"; "a"]).
  - exact cree_prefixFree.
  - unfold listed. simpl. repeat constructor; tauto.
Defined.

(** X10.  Every token returned by [splitSymbols] is non-empty and is the
    beginning of the symbol of some entry of the table. *)
Theorem splitSymbols_tokens_begin_entries :
  forall (alphabet : Alphabet) (text : string) (tokens : list string),
    splitSymbols alphabet text = Ok tokens ->
    Forall (fun t => t <> "" /\
                     exists e, In e alphabet /\ startsWith (symbol e) t)
           tokens.
Proof.
  intros alphabet text tokens H.
  apply splitSymbols_tokens_begin_symbols in H.
  eapply Forall_impl; [|exact H]. intros t [Hne Hvalid].
  split; [exact Hne|]. apply validSymbolPart_true in Hvalid.
  destruct Hvalid as (r & Hin & Hr). unfold getSymbols in Hin.
  apply in_map_iff in Hin. destruct Hin as (e & <- & He). now exists e.
Qed.

Lemma splitSymbols_tokens_begin_entries_witness :
  Forall (fun t => t <> "" /\
                   exists e, In e digraphOnly /\ startsWith (symbol e) t)
         ["a"].
Proof.
  apply (splitSymbols_tokens_begin_entries digraphOnly "a"). reflexivity.
Defined.

(** ** More on the sort key *)

Section MapRFacts.

Context {A B : Type}.

Lemma mapR_ok_iff (f : A -> result B) (xs : list A) :
  (exists ys, mapR f xs = Ok ys) <->
  Forall (fun x => exists y, f x = Ok y) xs.
Proof.
  induction xs as [|x xs IH].
  - split; [constructor | now exists []].
  - split.
    + intros (ys & H). apply mapR_cons_ok in H.
      destruct H as (y & ys' & Hy & Hys & _). constructor.
      * now exists y.
      * apply IH. now exists ys'.
    + intros H. inversion H as [|? ? (y & Hy) Hxs]; subst.
      apply IH in Hxs. destruct Hxs as (ys & Hys).
      exists (y :: ys). apply mapR_cons_ok. now exists y, ys.
Qed.

Lemma mapR_ext_Forall2 (f g : A -> result B) (xs ys : list A) :
  Forall2 (fun x y => f y = g x) xs ys -> mapR f ys = mapR g xs.
Proof.
  induction 1 as [|x y xs ys Hxy HF IH]; simpl; [reflexivity|].
  now rewrite Hxy, IH.
Qed.

End MapRFacts.

Lemma getSortBase_listed (alphabet : Alphabet) (s : string) :
  (exists b, getSortBase alphabet s = Ok b) <-> listed alphabet s.
Proof.
  rewrite <- getSymbolInfo_listed. unfold getSortBase.
  destruct (getSymbolInfo alphabet s) as [e|m]; simpl; split.
  - intros _. now exists e.
  - intros _. now exists (sortBase e).
  - intros (b & H). discriminate.
  - intros (e & H). discriminate.
Qed.


(** X12.  [sortValue] returns a key exactly when the text can be split and
    every token is the symbol of some entry. *)
Theorem sortValue_succeeds_iff :
  forall (alphabet : Alphabet) (text : string),
    (exists key, sortValue alphabet text = Ok key) <->
    exists tokens,
      splitSymbols alphabet text = Ok tokens /\
      Forall (listed alphabet) tokens.
Proof.
  intros alphabet text. unfold sortValue.
  destruct (splitSymbols alphabet text) as [syms|m]; cbn [bind].
  - rewrite sortLoop_numerals. split.
    + intros (key & H). exists syms. split; [reflexivity|].
      apply bind_ok in H. destruct H as (bases & Hb & _).
      assert (Hall : Forall (fun x => exists y, getSortBase alphabet x = Ok y)
                       syms) by (apply mapR_ok_iff; now exists bases).
      eapply Forall_impl; [|exact Hall]. intros t Ht.
      now apply getSortBase_listed.
    + intros (tokens & E & Hall). inversion E; subst tokens.
      assert (Hok : exists ys, mapR (getSortBase alphabet) syms = Ok ys).
      { apply mapR_ok_iff. eapply Forall_impl; [|exact Hall].
        intros t Ht. now apply getSortBase_listed. }
      destruct Hok as (bases & Hb). rewrite Hb. simpl. eauto.
  - split.
    + intros (key & H). discriminate.
    + intros (tokens & E & _). discriminate.
Qed.

Lemma twoDigit_in_range (n : Z) : twoDigit n -> In n twoDigitRange.
Proof.
  unfold twoDigit, twoDigitRange. intros H.
  replace n with (Z.of_nat (Z.to_nat n)) by lia.
  apply in_map. apply in_seq. lia.
Qed.

Lemma numeral_shape_checked :
  forallb (fun a => twoCharacters (JS.number_toString a)) twoDigitRange
  = true.
Proof. vm_compute. reflexivity. Qed.

Lemma numeral_compare_checked :
  forallb (fun a =>
    forallb (fun b =>
      sameComparison
        (String.compare (JS.number_toString a) (JS.number_toString b))
        (Z.compare a b)) twoDigitRange) twoDigitRange
  = true.
Proof. vm_compute. reflexivity. Qed.

Lemma numeral_shape (a : Z) :
  twoDigit a ->
  exists c1 c2, JS.number_toString a = String c1 (String c2 "").
Proof.
  intros H. apply twoDigit_in_range in H.
  pose proof (proj1 (forallb_forall _ _) numeral_shape_checked a H) as Hs.
  cbv beta in Hs.
  destruct (JS.number_toString a) as [|c1 [|c2 [|c3 s]]]; try discriminate.
  now exists c1, c2.
Qed.

Lemma numeral_compare (a b : Z) :
  twoDigit a -> twoDigit b ->
  String.compare (JS.number_toString a) (JS.number_toString b)
  = Z.compare a b.
Proof.
  intros Ha Hb. apply twoDigit_in_range in Ha, Hb.
  pose proof (proj1 (forallb_forall _ _) numeral_compare_checked a Ha) as H.
  cbv beta in H.
  pose proof (proj1 (forallb_forall _ _) H b Hb) as H'. cbv beta in H'.
  destruct (String.compare _ _), (Z.compare a b);
    first [reflexivity | discriminate].
Qed.

(** Two-digit numerals in front of two strings decide their order, unless
    they are the same. *)
Lemma key_compare (a b : Z) (rx ry : string) :
  twoDigit a -> twoDigit b ->
  String.compare (JS.number_toString a ++ rx) (JS.number_toString b ++ ry)
  = match Z.compare a b with
    | Eq => String.compare rx ry
    | c => c
    end.
Proof.
  intros Ha Hb. rewrite <- (numeral_compare a b Ha Hb).
  destruct (numeral_shape a Ha) as (a1 & a2 & ->).
  destruct (numeral_shape b Hb) as (b1 & b2 & ->).
  cbn [append String.compare].
  destruct (Ascii.compare a1 b1); try reflexivity.
  destruct (Ascii.compare a2 b2); reflexivity.
Qed.

Lemma keys_compare (bx : list Z) :
  forall bys,
    Forall twoDigit bx -> Forall twoDigit bys ->
    basesBefore bx bys = true ->
    String.compare (JS.join (map JS.number_toString bx))
                   (JS.join (map JS.number_toString bys)) = Lt.
Proof.
  induction bx as [|a bx IH]; intros [|b bys] Hx Hy H; simpl in H;
    try discriminate.
  - inversion Hy as [|? ? Hb _]; subst. cbn [map]. rewrite join_cons.
    destruct (numeral_shape b Hb) as (c1 & c2 & ->). reflexivity.
  - inversion Hx as [|? ? Ha Hx']; inversion Hy as [|? ? Hb Hy']; subst.
    cbn [map]. rewrite !join_cons, (key_compare a b _ _ Ha Hb).
    destruct (a <? b)%Z eqn:Elt.
    + apply Z.ltb_lt in Elt. apply Z.compare_lt_iff in Elt.
      now rewrite Elt.
    + destruct (a =? b)%Z eqn:Eeq; [|discriminate].
      apply Z.eqb_eq in Eeq. subst b. rewrite Z.compare_refl.
      now apply IH.
Qed.

(** X13.  When the sort bases of the tokens of two texts all lie between 10
    and 99 and those of the first come before those of the second, symbol
    by symbol, the sort key of the first is strictly smaller in the order
    of strings. *)
Theorem sortValue_monotone_on_two_digit_bases :
  forall (alphabet : Alphabet) (x y : string) (bx bys : list Z),
    sortBases alphabet x = Ok bx ->
    sortBases alphabet y = Ok bys ->
    Forall twoDigit bx -> Forall twoDigit bys ->
    basesBefore bx bys = true ->
    exists kx ky,
      sortValue alphabet x = Ok kx /\ sortValue alphabet y = Ok ky /\
      String.ltb kx ky = true.
Proof.
  intros alphabet x y bx bys Hx Hy Hbx Hby Hbefore.
  exists (JS.join (map JS.number_toString bx)),
         (JS.join (map JS.number_toString bys)).
  assert (Hkey : forall t bs, sortBases alphabet t = Ok bs ->
            sortValue alphabet t = Ok (JS.join (map JS.number_toString bs))).
  { intros t bs H. unfold sortBases in H. apply bind_ok in H.
    destruct H as (syms & Hs & Hb). unfold sortValue. rewrite Hs.
    cbn [bind]. rewrite sortLoop_numerals, Hb. reflexivity. }
  split; [now apply Hkey|]. split; [now apply Hkey|].
  unfold String.ltb. now rewrite (keys_compare bx bys Hbx Hby Hbefore).
Qed.

Lemma sortValue_monotone_on_two_digit_bases_witness :
  exists kx ky,
    sortValue cree "aQb" = Ok kx /\ sortValue cree "a-" = Ok ky /\
    String.ltb kx ky = true.
Proof.
  apply (sortValue_monotone_on_two_digit_bases cree "aQb" "a-"
           [10; 10; 11]%Z [10; 12]%Z).
  - reflexivity.
  - reflexivity.
  - unfold twoDigit. repeat constructor; lia.
  - unfold twoDigit. repeat constructor; lia.
  - reflexivity.
Defined.

(** ** More on case conversion and accent removal *)

Lemma getSymbolInfo_in (alphabet : Alphabet) (s : string)
    (e : SymbolDefinition) :
  getSymbolInfo alphabet s = Ok e -> In e alphabet /\ symbol e = s.
Proof.
  intros H. apply getSymbolInfo_ok in H.
  destruct H as (l1 & l2 & -> & Hs & _). split; [apply in_elt | exact Hs].
Qed.

Lemma filter_single_only {A : Type} (f : A -> bool) (l : list A) (e x : A) :
  filter f l = [e] -> In x l -> f x = true -> x = e.
Proof.
  intros Hf Hin Hx.
  assert (Hxf : In x (filter f l)) by (apply filter_In; auto).
  rewrite Hf in Hxf. destruct Hxf as [H|[]]. now symmetry.
Qed.

(** A token that has the target case already, or no case, is its own case
    form unless the table is ambiguous for it. *)
Lemma setCaseSymbol_own (alphabet : Alphabet) (caseval : Z) (s : string)
    (info : SymbolDefinition) :
  getSymbolInfo alphabet s = Ok info ->
  caseValue info = caseval \/ caseValue info = (-1)%Z ->
  setCaseSymbol alphabet caseval s = Ok s \/
  setCaseSymbol alphabet caseval s = Throw (multipleMatchingCharacters s).
Proof.
  intros Hinfo Hcase. destruct (getSymbolInfo_in _ _ _ Hinfo) as [Hin Hsym].
  assert (Hself : caseFilter (sortBase info) (accentRank info) caseval info
                  = true).
  { apply caseFilter_sibling. unfold caseSibling. auto. }
  unfold setCaseSymbol. rewrite Hinfo. cbn [bind].
  destruct (filter _ alphabet) as [|x [|y ys]] eqn:Ef.
  - apply filter_none in Ef. rewrite Forall_forall in Ef.
    rewrite (Ef info Hin) in Hself. discriminate.
  - left. simpl. rewrite <- (filter_single_only _ _ _ _ Ef Hin Hself).
    now rewrite Hsym.
  - right. reflexivity.
Qed.

Lemma mapR_own_or_throw {A : Type} (f : A -> result A) (g : A -> string)
    (l : list A) :
  Forall (fun t => f t = Ok t \/ f t = Throw (g t)) l ->
  mapR f l = Ok l \/ exists t, In t l /\ mapR f l = Throw (g t).
Proof.
  induction 1 as [|t l Ht HF IH]; [now left|].
  simpl. destruct Ht as [Ht|Ht]; rewrite Ht; simpl.
  - destruct IH as [IH|(u & Hu & IH)]; rewrite IH; simpl.
    + now left.
    + right. exists u. auto.
  - right. exists t. auto.
Qed.

(** X14.  When every token of a text has the target case already, or no
    case, [setCase] returns the text unchanged, unless it refuses one of
    those tokens as ambiguous.  It never turns such a text into another
    one. *)
Theorem setCase_same_case :
  forall (alphabet : Alphabet) (text : string) (caseval : Z)
         (tokens : list string),
    splitSymbols alphabet text = Ok tokens ->
    Forall (fun t => exists info,
              getSymbolInfo alphabet t = Ok info /\
              (caseValue info = caseval \/ caseValue info = (-1)%Z))
           tokens ->
    setCase alphabet text caseval = Ok text \/
    exists t, In t tokens /\
              setCase alphabet text caseval
              = Throw (multipleMatchingCharacters t).
Proof.
  intros alphabet text caseval tokens Hsplit Hall. unfold setCase.
  rewrite Hsplit. cbn [bind].
  assert (Hown : Forall (fun t =>
            setCaseSymbol alphabet caseval t = Ok t \/
            setCaseSymbol alphabet caseval t
            = Throw (multipleMatchingCharacters t)) tokens).
  { eapply Forall_impl; [|exact Hall]. intros t (info & Hinfo & Hcase).
    now apply (setCaseSymbol_own alphabet caseval t info). }
  destruct (mapR_own_or_throw _ _ _ Hown) as [H|(t & Ht & H)]; rewrite H;
    cbn [bind].
  - left. now rewrite (splitSymbols_join _ _ _ Hsplit).
  - right. now exists t.
Qed.

Lemma setCase_same_case_witness :
  toLowerCase cree "a-qb" = Ok "a-qb" \/
  exists t, In t ["a"; "-"; "q"; "b"] /\
            toLowerCase cree "a-qb" = Throw (multipleMatchingCharacters t).
Proof.
  apply (setCase_same_case cree "a-qb" 0 ["a"; "-"; "q"; "b"]).
  - reflexivity.
  - repeat constructor.
    + exists (mkSymbol "a" None 10 0 0). split; [reflexivity | now left].
    + exists (mkSymbol "-" None 12 0 (-1)). split; [reflexivity | now right].
    + exists (mkSymbol "q" None 10 1 0). split; [reflexivity | now left].
    + exists (mkSymbol "b" None 11 0 0). split; [reflexivity | now left].
Defined.

(** X15.  In a table whose symbols are pairwise distinct, converting a
    converted text to the same case again returns it unchanged, provided
    the converted text splits into the case forms it was made of. *)
Theorem setCase_idempotent :
  forall (alphabet : Alphabet) (text : string) (caseval : Z)
         (ctoks : list string),
    NoDup (getSymbols alphabet) ->
    caseTokens alphabet text caseval = Ok ctoks ->
    splitSymbols alphabet (JS.join ctoks) = Ok ctoks ->
    setCase alphabet text caseval = Ok (JS.join ctoks) /\
    setCase alphabet (JS.join ctoks) caseval = Ok (JS.join ctoks).
Proof.
  intros alphabet text caseval ctoks Hdistinct Hctoks Hsplit.
  split.
  - rewrite setCase_caseTokens, Hctoks. reflexivity.
  - unfold setCase. rewrite Hsplit. cbn [bind].
    unfold caseTokens in Hctoks. apply bind_ok in Hctoks.
    destruct Hctoks as (toks & _ & Hmap).
    assert (Hfix : mapR (setCaseSymbol alphabet caseval) ctoks = Ok ctoks).
    { apply mapR_fixed. apply mapR_ok_Forall2 in Hmap.
      clear - Hmap Hdistinct.
      induction Hmap as [|s u xs ys Hsu HF IH]; constructor; auto.
      apply (setCaseSymbol_again alphabet Hdistinct caseval caseval s u Hsu).
      exact Hsu. }
    now rewrite Hfix.
Qed.

Lemma setCase_idempotent_witness :
  toUpperCase cree "aq-B" = Ok "AQ-B" /\
  toUpperCase cree "AQ-B" = Ok "AQ-B".
Proof.
  apply (setCase_idempotent cree "aq-B" 1 ["A"; "Q"; "-"; "B"]).
  - simpl. repeat constructor; simpl; intuition discriminate.
  - reflexivity.
  - reflexivity.
Defined.

(** X16.  Whatever [removeSymbolAccent] returns is the symbol of a
    definition without accent that has the sort base and the case of the
    given one: the given definition itself or an entry of the table. *)
Theorem removeSymbolAccent_unaccented :
  forall (alphabet : Alphabet) (sym : SymbolDefinition) (r : string),
    removeSymbolAccent alphabet sym = Ok r ->
    exists e,
      (e = sym \/ In e alphabet) /\ unaccentedSibling sym e /\
      r = symbol e.
Proof.
  intros alphabet sym r H. unfold removeSymbolAccent in H.
  destruct (accentRank sym =? 0)%Z eqn:E.
  - inversion H. exists sym. apply Z.eqb_eq in E.
    unfold unaccentedSibling. auto.
  - apply removeAccent_from_ok in H. destruct H as (e & Hin & He & ->).
    exists e. auto.
Qed.

Lemma removeSymbolAccent_unaccented_witness :
  exists e,
    (e = mkSymbol "Q" None 10 1 1 \/ In e cree) /\
    unaccentedSibling (mkSymbol "Q" None 10 1 1) e /\ "A" = symbol e.
Proof.
  apply (removeSymbolAccent_unaccented cree (mkSymbol "Q" None 10 1 1) "A").
  reflexivity.
Defined.

(** X17.  A text whose tokens are all symbols without accent is returned
    unchanged by [stripAccents], whatever else the table holds. *)
Theorem stripAccents_unaccented_text :
  forall (alphabet : Alphabet) (text : string) (tokens : list string),
    splitSymbols alphabet text = Ok tokens ->
    Forall (fun t => exists info,
              getSymbolInfo alphabet t = Ok info /\ accentRank info = 0%Z)
           tokens ->
    stripAccents alphabet text = Ok text.
Proof.
  intros alphabet text tokens Hsplit Hall.
  rewrite stripAccents_stripTokens. unfold stripTokens.
  rewrite Hsplit. cbn [bind].
  assert (Hfix : mapR (stripSymbol alphabet) tokens = Ok tokens).
  { apply mapR_fixed. eapply Forall_impl; [|exact Hall].
    intros t (info & Hinfo & Hacc). unfold stripSymbol. rewrite Hinfo.
    cbn [bind]. unfold removeSymbolAccent.
    apply Z.eqb_eq in Hacc. rewrite Hacc.
    now rewrite (proj2 (getSymbolInfo_in _ _ _ Hinfo)). }
  rewrite Hfix. cbn [bind]. now rewrite (splitSymbols_join _ _ _ Hsplit).
Qed.

Lemma stripAccents_unaccented_text_witness :
  stripAccents cree "Ab-a" = Ok "Ab-a".
Proof.
  apply (stripAccents_unaccented_text cree "Ab-a" ["A"; "b"; "-"; "a"]).
  - reflexivity.
  - repeat constructor.
    + exists (mkSymbol "A" None 10 0 1). now split.
    + exists (mkSymbol "b" None 11 0 0). now split.
    + exists (mkSymbol "-" None 12 0 (-1)). now split.
    + exists (mkSymbol "a" None 10 0 0). now split.
Defined.

Lemma setCaseSymbol_listed (alphabet : Alphabet) (caseval : Z)
    (s r : string) :
  setCaseSymbol alphabet caseval s = Ok r -> listed alphabet s.
Proof.
  intros H. apply setCaseSymbol_ok in H.
  destruct H as (info & e & Hinfo & _). apply getSymbolInfo_listed.
  now exists info.
Qed.

Lemma stripSymbol_listed (alphabet : Alphabet) (x r : string) :
  stripSymbol alphabet x = Ok r -> listed alphabet x.
Proof.
  unfold stripSymbol. intros H. apply bind_ok in H.
  destruct H as (s & Hs & _). apply getSymbolInfo_listed. now exists s.
Qed.

(** X18.  [setCase] and [stripAccents] return a text only when every token
    of the split is the symbol of some entry: a token that merely begins a
    symbol is refused by the lookup that follows the split. *)
Theorem conversions_need_listed_tokens :
  forall (alphabet : Alphabet) (text r : string),
    ((exists caseval, setCase alphabet text caseval = Ok r) \/
     stripAccents alphabet text = Ok r) ->
    exists tokens,
      splitSymbols alphabet text = Ok tokens /\
      Forall (listed alphabet) tokens.
Proof.
  intros alphabet text r [(caseval & H)|H].
  - unfold setCase in H. apply bind_ok in H.
    destruct H as (tokens & Hsplit & H). apply bind_ok in H.
    destruct H as (outs & Hmap & _). exists tokens. split; [assumption|].
    assert (Hall : Forall (fun x => exists y,
                     setCaseSymbol alphabet caseval x = Ok y) tokens)
      by (apply mapR_ok_iff; now exists outs).
    eapply Forall_impl; [|exact Hall]. intros t (y & Hy).
    now apply (setCaseSymbol_listed alphabet caseval t y).
  - rewrite stripAccents_stripTokens in H. apply bind_ok in H.
    destruct H as (rs & Hrs & _). unfold stripTokens in Hrs.
    apply bind_ok in Hrs. destruct Hrs as (tokens & Hsplit & Hmap).
    exists tokens. split; [assumption|].
    assert (Hall : Forall (fun x => exists y,
                     stripSymbol alphabet x = Ok y) tokens)
      by (apply mapR_ok_iff; now exists rs).
    eapply Forall_impl; [|exact Hall]. intros t (y & Hy).
    now apply (stripSymbol_listed alphabet t y).
Qed.

Lemma conversions_need_listed_tokens_witness :
  exists tokens,
    splitSymbols cree "qB" = Ok tokens /\ Forall (listed cree) tokens.
Proof.
  apply (conversions_need_listed_tokens cree "qB" "aB").
  right. reflexivity.
Defined.

(** ** The sort key of a converted text *)

Section SortKeyInvariance.

Variable alphabet : Alphabet.
Hypothesis distinct : NoDup (getSymbols alphabet).

Lemma getSortBase_setCaseSymbol (caseval : Z) (s u : string) :
  setCaseSymbol alphabet caseval s = Ok u ->
  getSortBase alphabet u = getSortBase alphabet s.
Proof.
  intros H. apply setCaseSymbol_ok in H.
  destruct H as (info & e & Hinfo & (l1 & l2 & E & He & _) & ->).
  assert (Hin : In e alphabet) by (rewrite E; apply in_elt).
  unfold getSortBase.
  rewrite (getSymbolInfo_entry alphabet distinct e Hin), Hinfo. simpl.
  now rewrite (proj1 He).
Qed.

Lemma getSortBase_stripSymbol (x r : string) :
  stripSymbol alphabet x = Ok r ->
  getSortBase alphabet r = getSortBase alphabet x.
Proof.
  unfold stripSymbol. intros H. apply bind_ok in H.
  destruct H as (s & Hs & Hr). unfold removeSymbolAccent in Hr.
  destruct (accentRank s =? 0)%Z.
  - inversion Hr. now rewrite (proj2 (getSymbolInfo_in _ _ _ Hs)).
  - apply removeAccent_from_ok in Hr.
    destruct Hr as (e & Hin & (Hbase & _) & ->). unfold getSortBase.
    rewrite (getSymbolInfo_entry alphabet distinct e Hin), Hs. simpl.
    now rewrite Hbase.
Qed.

Lemma sortValue_of_tokens (text : string) (tokens : list string) :
  splitSymbols alphabet text = Ok tokens ->
  sortValue alphabet text =
  (bases <- mapR (getSortBase alphabet) tokens ;;
   Ok (JS.join (map JS.number_toString bases))).
Proof.
  intros H. unfold sortValue. rewrite H. cbn [bind].
  rewrite sortLoop_numerals.
  destruct (mapR (getSortBase alphabet) tokens); reflexivity.
Qed.

End SortKeyInvariance.

(** X19.  In a table whose symbols are pairwise distinct, a text and its
    conversion to either case have the same sort key, provided the
    converted text splits into the case forms it was made of. *)
Theorem sortValue_ignores_case :
  forall (alphabet : Alphabet) (text : string) (caseval : Z)
         (ctoks : list string),
    NoDup (getSymbols alphabet) ->
    caseTokens alphabet text caseval = Ok ctoks ->
    splitSymbols alphabet (JS.join ctoks) = Ok ctoks ->
    setCase alphabet text caseval = Ok (JS.join ctoks) /\
    sortValue alphabet (JS.join ctoks) = sortValue alphabet text.
Proof.
  intros alphabet text caseval ctoks Hdistinct Hctoks Hsplit.
  split; [rewrite setCase_caseTokens, Hctoks; reflexivity|].
  unfold caseTokens in Hctoks. apply bind_ok in Hctoks.
  destruct Hctoks as (toks & Htoks & Hmap).
  rewrite (sortValue_of_tokens alphabet _ _ Hsplit).
  rewrite (sortValue_of_tokens alphabet _ _ Htoks).
  rewrite (mapR_ext_Forall2 (getSortBase alphabet) (getSortBase alphabet)
             toks ctoks); [reflexivity|].
  apply mapR_ok_Forall2 in Hmap. eapply Forall2_impl; [|exact Hmap].
  intros s u Hsu.
  now apply (getSortBase_setCaseSymbol alphabet Hdistinct caseval s u).
Qed.

Lemma sortValue_ignores_case_witness :
  toUpperCase cree "aq-B" = Ok "AQ-B" /\
  sortValue cree "AQ-B" = sortValue cree "aq-B".
Proof.
  apply (sortValue_ignores_case cree "aq-B" 1 ["A"; "Q"; "-"; "B"]).
  - simpl. repeat constructor; simpl; intuition discriminate.
  - reflexivity.
  - reflexivity.
Defined.

(** X20.  In a table whose symbols are pairwise distinct, a text and its
    form without accents have the same sort key, provided the stripped
    text splits into the unaccented forms it was made of. *)
Theorem sortValue_ignores_accents :
  forall (alphabet : Alphabet) (text : string) (stoks : list string),
    NoDup (getSymbols alphabet) ->
    stripTokens alphabet text = Ok stoks ->
    splitSymbols alphabet (JS.join stoks) = Ok stoks ->
    stripAccents alphabet text = Ok (JS.join stoks) /\
    sortValue alphabet (JS.join stoks) = sortValue alphabet text.
Proof.
  intros alphabet text stoks Hdistinct Hstoks Hsplit.
  split; [rewrite stripAccents_stripTokens, Hstoks; reflexivity|].
  unfold stripTokens in Hstoks. apply bind_ok in Hstoks.
  destruct Hstoks as (toks & Htoks & Hmap).
  rewrite (sortValue_of_tokens alphabet _ _ Hsplit).
  rewrite (sortValue_of_tokens alphabet _ _ Htoks).
  rewrite (mapR_ext_Forall2 (getSortBase alphabet) (getSortBase alphabet)
             toks stoks); [reflexivity|].
  apply mapR_ok_Forall2 in Hmap. eapply Forall2_impl; [|exact Hmap].
  intros x r Hxr.
  now apply (getSortBase_stripSymbol alphabet Hdistinct x r).
Qed.

Lemma sortValue_ignores_accents_witness :
  stripAccents cree "Qb-q" = Ok "Ab-a" /\
  sortValue cree "Ab-a" = sortValue cree "Qb-q".
Proof.
  apply (sortValue_ignores_accents cree "Qb-q" ["A"; "b"; "-"; "a"]).
  - simpl. repeat constructor; simpl; intuition discriminate.
  - reflexivity.
  - reflexivity.
Defined.

(** ** [replaceWinmac] *)

Section ReplaceWinmacFacts.

Variable regexReplace : string -> string -> string -> result string.

(** X21.  Whatever the regular expression engine does, a table none of
    whose entries declares a pattern (the field is [null] or the empty
    string) leaves every text unchanged, and the engine is not called. *)
Theorem replaceWinmac_without_patterns :
  forall (alphabet : Alphabet) (str : string),
    Forall (fun e => winmac e = None \/ winmac e = Some "") alphabet ->
    replaceWinmac regexReplace alphabet str = Ok str.
Proof.
  intros alphabet str H. induction H as [|e rest He HF IH]; simpl.
  - reflexivity.
  - unfold winmacPattern. destruct He as [-> | ->]; exact IH.
Qed.

(** X22.  The substitutions are applied in table order, each on the result
    of the ones before it: the entries of a table put after those of
    another work on what the first table returned, and do not run when the
    first table throws. *)
Theorem replaceWinmac_app :
  forall (first second : Alphabet) (str : string),
    replaceWinmac regexReplace (first ++ second)%list str =
    (str' <- replaceWinmac regexReplace first str ;;
     replaceWinmac regexReplace second str').
Proof.
  intros first second. induction first as [|e rest IH]; intros str; simpl.
  - reflexivity.
  - destruct (winmacPattern e) as [p|]; [|apply IH].
    destruct (regexReplace p str (symbol e)) as [s|m]; simpl;
      [apply IH | reflexivity].
Qed.

End ReplaceWinmacFacts.

Lemma replaceWinmac_without_patterns_witness :
  replaceWinmac (fun _ _ _ => Throw "SyntaxError") cree "aq-B" = Ok "aq-B".
Proof.
  apply (replaceWinmac_without_patterns (fun _ _ _ => Throw "SyntaxError")
           cree "aq-B").
  repeat constructor.
Defined.
